(** * The copybook parser of [flask_copybook_ui.py]

    A shallow embedding of [CopybookParser] (methods [parse], [_parse_pic]
    and [generate_ddl]) and of the dataclass [Field], with the properties of
    the parser proved over it.

    Conventions of the embedding.
    - A Python [str] is a [string]; every [ascii] stands for the code point
      of the same number (0 to 255).  The character classes below are the
      ones CPython uses for these code points.
    - A Python [int] is an [N]: levels and digit counts are never negative,
      and Python integers are unbounded.
    - The interpreter has a configurable limit on the number of digits of
      an integer converted from or to text ([sys.set_int_max_str_digits];
      4300 by default since CPython 3.11, none when set to 0 and in older
      versions).  [int], [str] and the parser built on them are the code
      under an interpreter without the limit: they give the results of
      the code.  The module [Limited] is the same code under the default
      limit, where [int ()] and the f-strings of [_parse_pic] can raise
      [ValueError]; whenever [Limited.parse] returns, [parse] returns the
      same ([parse_limited_refines]).
    - [str.lower] is applied by the source to Field names only; on the
      inputs modelled these are made of ASCII letters, digits and hyphens,
      and [lower_char] is [str.lower] on such characters.
    - An operation that can raise ([int ()], indexing a list) returns in the
      error monad [py]; the guards of the source are kept in front of it.
    - [parent_stack] is a Python list used as a stack with [append] and
      [pop]: it is kept here with its last element, the top, at the head. *)

From Stdlib Require Import Bool Ascii String List PeanoNat NArith Lia.
From Stdlib Require Import DecimalString.
From Stdlib Require DecimalFacts DecimalPos DecimalN.
Import ListNotations.

Local Open Scope string_scope.
Local Open Scope N_scope.

(** ** Exceptions *)

Inductive exn : Type :=
| ValueError
| IndexError.

Inductive py (A : Type) : Type :=
| Ok (a : A)
| Raise (e : exn).

Arguments Ok {A} a.
Arguments Raise {A} e.

Definition bind {A B : Type} (m : py A) (k : A -> py B) : py B :=
  match m with
  | Ok a => k a
  | Raise e => Raise e
  end.

Notation "x <- m ;; k" := (bind m (fun x => k))
  (at level 61, m at next level, right associativity).

(** ** Characters *)

Definition code (c : ascii) : N := N_of_ascii c.

Definition in_range (lo hi : N) (c : ascii) : bool :=
  (lo <=? code c) && (code c <=? hi).

(** [str.isspace] on one character, which is also the class [\s] of a
    [str] pattern: TAB to CR, FS to US, space, NEL and NBSP. *)
Definition is_space (c : ascii) : bool :=
  in_range 9 13 c || in_range 28 32 c || (code c =? 133) || (code c =? 160).

(** The class [\d] of a [str] pattern, below code point 256. *)
Definition is_digit (c : ascii) : bool := in_range 48 57 c.

Definition is_upper (c : ascii) : bool := in_range 65 90 c.
Definition is_lower (c : ascii) : bool := in_range 97 122 c.

(** [[A-Z0-9\-]] under [re.IGNORECASE]: the flag is given for the whole
    pattern, so the letters of both cases are in the class. *)
Definition is_name_char (c : ascii) : bool :=
  is_upper c || is_lower c || is_digit c || (code c =? 45).

(** [[^\s.]]. *)
Definition is_pic_char (c : ascii) : bool :=
  negb (is_space c) && negb (code c =? 46).

(** [str.upper] and [str.lower] on one character.  A character above 127
    has no upper-case form among the characters the patterns of
    [_parse_pic] test, so it is left as it is. *)
Definition upper_char (c : ascii) : ascii :=
  if is_lower c then ascii_of_N (code c - 32) else c.

Definition lower_char (c : ascii) : ascii :=
  if is_upper c then ascii_of_N (code c + 32) else c.

Definition LF : ascii := "010"%char.

(** ** Strings *)

Fixpoint map_str (f : ascii -> ascii) (s : string) : string :=
  match s with
  | EmptyString => EmptyString
  | String c r => String (f c) (map_str f r)
  end.

Definition upper (s : string) : string := map_str upper_char s.
Definition lower (s : string) : string := map_str lower_char s.

(** [s.replace (a, b)] for one-character [a] and [b]. *)
Definition replace_char (a b : ascii) (s : string) : string :=
  map_str (fun c => if Ascii.eqb c a then b else c) s.

Fixpoint all_chars (p : ascii -> bool) (s : string) : bool :=
  match s with
  | EmptyString => true
  | String c r => p c && all_chars p r
  end.

Definition is_empty (s : string) : bool :=
  match s with
  | EmptyString => true
  | String _ _ => false
  end.

(** The longest prefix of [s] whose characters satisfy [p], and the rest:
    what a greedy [c*] consumes. *)
Fixpoint span (p : ascii -> bool) (s : string) : string * string :=
  match s with
  | EmptyString => (EmptyString, EmptyString)
  | String c r =>
      if p c then let (a, b) := span p r in (String c a, b)
      else (EmptyString, s)
  end.

Definition lstrip (s : string) : string := snd (span is_space s).

Fixpoint rstrip (s : string) : string :=
  match s with
  | EmptyString => EmptyString
  | String c r =>
      let r' := rstrip r in
      if is_space c && is_empty r' then EmptyString else String c r'
  end.

(** [s.strip ()]. *)
Definition strip (s : string) : string := rstrip (lstrip s).

(** [s.startswith (c)] for a one-character [c]. *)
Definition startswith (c : ascii) (s : string) : bool :=
  match s with
  | EmptyString => false
  | String d _ => Ascii.eqb d c
  end.

(** [c in s] for a one-character [c]. *)
Fixpoint contains (c : ascii) (s : string) : bool :=
  match s with
  | EmptyString => false
  | String d r => Ascii.eqb d c || contains c r
  end.

(** [s.split ('\n')]: never empty, one more piece than there are line
    feeds. *)
Fixpoint split_lines (s : string) : list string :=
  match s with
  | EmptyString => [EmptyString]
  | String c r =>
      if Ascii.eqb c LF then EmptyString :: split_lines r
      else match split_lines r with
           | l :: ls => String c l :: ls
           | [] => [String c EmptyString]
           end
  end.

(** ** Integers and their decimal text *)

Definition digit_value (c : ascii) : N := code c - 48.

Fixpoint int_acc (acc : N) (s : string) : py N :=
  match s with
  | EmptyString => Ok acc
  | String c r =>
      if is_digit c then int_acc (10 * acc + digit_value c) r
      else Raise ValueError
  end.

(** [int (s)], without the limit on the number of digits ([Limited.int]
    has it).  The source applies it to captured runs of digits only; any
    other text, the empty one included, is taken to raise, which is
    stricter than the interpreter (it also accepts signs, blanks and
    underscores). *)
Definition int (s : string) : py N :=
  if is_empty s then Raise ValueError else int_acc 0 s.

(** [str (n)], as an f-string renders an integer, without the limit on
    the number of digits ([Limited.str] has it). *)
Definition str (n : N) : string := NilEmpty.string_of_uint (N.to_uint n).

(** ** The patterns

    Each pattern of the source is written out as the matcher the regular
    expression engine runs on it.  Every repetition in these patterns is
    greedy and is followed by an item that accepts none of the characters
    the repetition consumes, so giving characters back never helps and the
    longest run is the only one tried with success. *)

(** A literal at the front of [s]; the rest of [s] when it is there. *)
Fixpoint lit (p s : string) : option string :=
  match p, s with
  | EmptyString, _ => Some s
  | String a p', String b s' => if Ascii.eqb a b then lit p' s' else None
  | String _ _, EmptyString => None
  end.

(** The same under [re.IGNORECASE], for an upper-case literal [p]. *)
Fixpoint lit_ci (p s : string) : option string :=
  match p, s with
  | EmptyString, _ => Some s
  | String a p', String b s' =>
      if Ascii.eqb a (upper_char b) then lit_ci p' s' else None
  | String _ _, EmptyString => None
  end.

(** [c+] for a character class [c]: the run and the rest. *)
Definition run1 (p : ascii -> bool) (s : string) : option (string * string) :=
  let (a, r) := span p s in
  if is_empty a then None else Some (a, r).

(** [re.search]: the match at the leftmost position that has one. *)
Fixpoint search {A : Type} (m : string -> option A) (s : string) : option A :=
  match m s with
  | Some r => Some r
  | None =>
      match s with
      | EmptyString => None
      | String _ r => search m r
      end
  end.

(** [9\((\d+)\)] at the front of [s]: group 1. *)
Definition match_int_at (s : string) : option string :=
  match lit "9(" s with
  | Some r1 =>
      match run1 is_digit r1 with
      | Some (ds, r2) =>
          match lit ")" r2 with
          | Some _ => Some ds
          | None => None
          end
      | None => None
      end
  | None => None
  end.

(** [9\((\d+)\)V9\((\d+)\)] at the front of [s]: groups 1 and 2. *)
Definition match_decimal_at (s : string) : option (string * string) :=
  match lit "9(" s with
  | Some r1 =>
      match run1 is_digit r1 with
      | Some (ds1, r2) =>
          match lit ")V9(" r2 with
          | Some r3 =>
              match run1 is_digit r3 with
              | Some (ds2, r4) =>
                  match lit ")" r4 with
                  | Some _ => Some (ds1, ds2)
                  | None => None
                  end
              | None => None
              end
          | None => None
          end
      | None => None
      end
  | None => None
  end.

(** [[XA]\((\d+)\)] at the front of [s]: group 1. *)
Definition match_char_at (s : string) : option string :=
  match s with
  | String c r0 =>
      if Ascii.eqb c "X" || Ascii.eqb c "A" then
        match lit "(" r0 with
        | Some r1 =>
            match run1 is_digit r1 with
            | Some (ds, r2) =>
                match lit ")" r2 with
                | Some _ => Some ds
                | None => None
                end
            | None => None
            end
        | None => None
        end
      else None
  | EmptyString => None
  end.

(** One alternative of [(?:PIC|PICTURE)] with what follows it,
    [\s+([^\s.]+)]: group 3. *)
Definition pic_tail_with (kw s : string) : option string :=
  match lit_ci kw s with
  | Some r1 =>
      match run1 is_space r1 with
      | Some (_, r2) =>
          match run1 is_pic_char r2 with
          | Some (tok, _) => Some tok
          | None => None
          end
      | None => None
      end
  | None => None
  end.

(** [(?:\s+(?:PIC|PICTURE)\s+([^\s.]+))?]: group 3, or [None] when the
    optional part matches nothing.  The alternatives are tried in order. *)
Definition pic_tail (s : string) : option string :=
  match run1 is_space s with
  | Some (_, r) =>
      match pic_tail_with "PIC" r with
      | Some tok => Some tok
      | None => pic_tail_with "PICTURE" r
      end
  | None => None
  end.

(** [re.match (pattern, line, re.IGNORECASE)] for the pattern of [parse]:
    groups 1, 2 and 3 of the match, or [None]. *)
Definition match_line (line : string) : option (string * string * option string) :=
  match lstrip line with
  | String d1 (String d2 r0) =>
      if is_digit d1 && is_digit d2 then
        match run1 is_space r0 with
        | Some (_, r1) =>
            match run1 is_name_char r1 with
            | Some (name, r2) =>
                Some (String d1 (String d2 EmptyString), name, pic_tail r2)
            | None => None
            end
        | None => None
        end
      else None
  | _ => None
  end.

(** ** [Field] and the parser *)

Module Field.
Record t : Type := mk {
  level : N;
  name : string;
  pic : option string;
  sql_type : string;
  length : option N;
  parent : option string
}.
End Field.

Record CopybookParser : Type := {
  fields : list Field.t;
  parent_stack : list (N * string)
}.

(** [__init__]. *)
Definition new_parser : CopybookParser :=
  {| fields := []; parent_stack := [] |}.

(** [_parse_pic]. *)
Definition _parse_pic (pic : string) : py (string * N) :=
  let pic := strip (upper pic) in
  match (if contains "V" pic then search match_decimal_at pic else None) with
  | Some (g1, g2) =>
      p <- int g1 ;;
      s <- int g2 ;;
      Ok ("DECIMAL(" ++ str (p + s) ++ "," ++ str s ++ ")", p + s)
  | None =>
      match search match_int_at pic with
      | Some g1 =>
          length <- int g1 ;;
          Ok (if 9 <? length then "BIGINT" else "INTEGER", length)
      | None =>
          match search match_char_at pic with
          | Some g1 =>
              length <- int g1 ;;
              Ok ("VARCHAR(" ++ str length ++ ")", length)
          | None => Ok ("VARCHAR(255)", 255)
          end
      end
  end.

(** [l.append (x)]. *)
Definition append_item {A : Type} (l : list A) (x : A) : list A := (l ++ [x])%list.

(** The [while] loop of [parse]: entries are popped while the stack is not
    empty and the level of its top is at least [level]. *)
Fixpoint pop_while (level : N) (stack : list (N * string)) : list (N * string) :=
  match stack with
  | (l, n) :: rest => if level <=? l then pop_while level rest else stack
  | [] => []
  end.

(** [stack[-1]]. *)
Definition top (stack : list (N * string)) : py (N * string) :=
  match stack with
  | x :: _ => Ok x
  | [] => Raise IndexError
  end.

Definition is_nil {A : Type} (l : list A) : bool :=
  match l with
  | [] => true
  | _ :: _ => false
  end.

(** The body of the [for] loop of [parse] on one line. *)
Definition parse_line (self : CopybookParser) (line : string) : py CopybookParser :=
  if startswith "*" (strip line) || is_empty (strip line) then Ok self
  else
    match match_line line with
    | None => Ok self
    | Some (g1, name, pic) =>
        level <- int g1 ;;
        let stack := pop_while level (parent_stack self) in
        parent <- (if is_nil stack then Ok None
                   else t <- top stack ;; Ok (Some (snd t))) ;;
        match pic with
        | None =>
            Ok {| fields := fields self; parent_stack := (level, name) :: stack |}
        | Some p =>
            if is_empty p then
              Ok {| fields := fields self; parent_stack := (level, name) :: stack |}
            else
              r <- _parse_pic p ;;
              Ok {| fields := append_item (fields self)
                      (Field.mk level name (Some p) (fst r) (Some (snd r)) parent);
                    parent_stack := stack |}
        end
    end.

Fixpoint parse_lines (self : CopybookParser) (lines : list string) : py CopybookParser :=
  match lines with
  | [] => Ok self
  | line :: rest => self' <- parse_line self line ;; parse_lines self' rest
  end.

(** [parse]: the instance after the call, and the list returned. *)
Definition parse (self : CopybookParser) (content : string)
  : py (CopybookParser * list Field.t) :=
  let self := {| fields := []; parent_stack := [] |} in
  self' <- parse_lines self (split_lines content) ;;
  Ok (self', fields self').

Definition NL : string := String LF EmptyString.

(** The f-string of the loop of [generate_ddl]: one column. *)
Definition col (f : Field.t) : string :=
  "    " ++ replace_char "-" "_" (lower (Field.name f)) ++ " " ++ Field.sql_type f.

(** [generate_ddl]. *)
Definition generate_ddl (self : CopybookParser) (table_name : string) : string :=
  let ddl := "CREATE TABLE bronze." ++ table_name ++ " (" ++ NL in
  let cols := fold_left (fun cols f => append_item cols (col f)) (fields self) [] in
  ddl ++ String.concat ("," ++ NL) cols ++ NL ++ ");".

(** The route [/parse]: a fresh parser, [parse], then [generate_ddl]. *)
Definition parse_route (copybook table_name : string) : py (list Field.t * string) :=
  r <- parse new_parser copybook ;;
  Ok (snd r, generate_ddl (fst r) table_name).

(** ** The scan, line by line *)

(** The three outcomes of the tests the loop body makes on a line (the
    [continue] of a comment, blank or unmatched line; the branch
    [if not pic]; the rest of the body): the Line Classifier.  Group 1 of a
    match is two digits, so [int] returns on it ([match_line_level]) and
    the branch [Raise] below is never taken. *)
Inductive line_class : Type :=
| Skip
| GroupDeclaration (level : N) (name : string)
| FieldDeclaration (level : N) (name pic : string).

Definition classify (line : string) : line_class :=
  if startswith "*" (strip line) || is_empty (strip line) then Skip
  else
    match match_line line with
    | None => Skip
    | Some (g1, name, pic) =>
        match int g1 with
        | Raise _ => Skip
        | Ok level =>
            match pic with
            | None => GroupDeclaration level name
            | Some p =>
                if is_empty p then GroupDeclaration level name
                else FieldDeclaration level name p
            end
        end
    end.

Definition is_field (d : line_class) : bool :=
  match d with
  | FieldDeclaration _ _ _ => true
  | _ => false
  end.

Definition count_fields (ds : list line_class) : nat :=
  List.length (filter is_field ds).

(** The instance after the loop has run over the lines [pre]. *)
Definition state_after (pre : list string) : py CopybookParser :=
  parse_lines {| fields := []; parent_stack := [] |} pre.

(** [stack[-1][1] if stack else None]. *)
Definition parent_of (stack : list (N * string)) : option string :=
  match stack with
  | [] => None
  | (_, n) :: _ => Some n
  end.

(** The levels of a stack grow strictly from its bottom to its top. *)
Fixpoint increasing (stack : list (N * string)) : Prop :=
  match stack with
  | [] => True
  | (l, _) :: below => Forall (fun e => fst e < l) below /\ increasing below
  end.

(** What a line of class [d] does to the group stack: nothing, a pop and
    a push, or a pop. *)
Definition resolve_stack (stack : list (N * string)) (d : line_class)
  : list (N * string) :=
  match d with
  | Skip => stack
  | GroupDeclaration l n => (l, n) :: pop_while l stack
  | FieldDeclaration l _ _ => pop_while l stack
  end.

(** The group stack after the declarations [ds], from the empty one. *)
Definition stack_after (ds : list line_class) : list (N * string) :=
  fold_left resolve_stack ds [].

(** ** What the claims speak of *)

(** A non-empty run of digits. *)
Definition is_number (ds : string) : Prop :=
  all_chars is_digit ds = true /\ ds <> EmptyString.

(** [strip (upper pic)], the clause the patterns are searched in. *)
Definition normalize (pic : string) : string := strip (upper pic).

(** [s] starts with [9(ds)]. *)
Definition int_pattern_at (s ds : string) : Prop :=
  is_number ds /\ exists post, s = "9(" ++ ds ++ ")" ++ post.

(** [s] starts with [9(dp)V9(dq)]. *)
Definition decimal_pattern_at (s dp dq : string) : Prop :=
  is_number dp /\ is_number dq /\
  exists post, s = "9(" ++ dp ++ ")V9(" ++ dq ++ ")" ++ post.

(** [s] starts with [X(ds)] or [A(ds)]. *)
Definition char_pattern_at (s ds : string) : Prop :=
  is_number ds /\
  exists c post, (c = "X"%char \/ c = "A"%char) /\
                 s = String c ("(" ++ ds ++ ")" ++ post).

(** A pattern matches somewhere in [s]. *)
Definition has_int (s : string) : Prop :=
  exists pre suf ds, s = pre ++ suf /\ int_pattern_at suf ds.

Definition has_decimal (s : string) : Prop :=
  exists pre suf dp dq, s = pre ++ suf /\ decimal_pattern_at suf dp dq.

Definition has_char (s : string) : Prop :=
  exists pre suf ds, s = pre ++ suf /\ char_pattern_at suf ds.

(** [9(ds)] stands in [s] after [pre], and no [9(N)] starts before it. *)
Definition first_int (s pre ds : string) : Prop :=
  (exists suf, s = pre ++ suf /\ int_pattern_at suf ds) /\
  forall pre' suf' ds',
    s = pre' ++ suf' -> int_pattern_at suf' ds' ->
    (String.length pre <= String.length pre')%nat.

Definition starts_with_class (p : ascii -> bool) (s : string) : bool :=
  match s with
  | EmptyString => false
  | String c _ => p c
  end.

(** The text of a declaration, as the pattern of [parse] reads it under
    [re.IGNORECASE]: blanks, two digits, blanks, and the longest run of
    letters of either case, digits and hyphens. *)
Definition declaration_shape (line : string) (level : N) (name : string) : Prop :=
  exists ws d1 d2 ws1 rest,
    line = ws ++ String d1 (String d2 (ws1 ++ name ++ rest)) /\
    all_chars is_space ws = true /\
    is_digit d1 = true /\ is_digit d2 = true /\
    level = 10 * digit_value d1 + digit_value d2 /\
    all_chars is_space ws1 = true /\ ws1 <> EmptyString /\
    all_chars is_name_char name = true /\ name <> EmptyString /\
    starts_with_class is_name_char rest = false.

(** The level of a declaration. *)
Definition level_of (d : line_class) : option N :=
  match d with
  | Skip => None
  | GroupDeclaration l _ => Some l
  | FieldDeclaration l _ _ => Some l
  end.

(** Every declaration of [ds] has a level above [lv]. *)
Definition all_above (lv : N) (ds : list line_class) : Prop :=
  Forall (fun d => match level_of d with
                   | Some l => lv < l
                   | None => True
                   end) ds.

(** The group [name], declared at level [lv] in [ds], is still open for a
    line of level [level] that follows [ds]: it is lower than that line and
    than every declaration, group or field, between the two. *)
Definition open_group (ds : list line_class) (level lv : N) (name : string)
    (after : list line_class) : Prop :=
  (exists before, ds = before ++ GroupDeclaration lv name :: after)%list /\
  lv < level /\ all_above lv after.

(** The nearest open group: no group declared after it is open. *)
Definition nearest_open_group (ds : list line_class) (level : N) (name : string) : Prop :=
  exists lv after,
    open_group ds level lv name after /\
    forall lv' name' after', ~ (open_group after level lv' name' after').

(** The nearest group declared before a line of level [level] that is
    lower than it, whatever stands between the two: [rds] is the list of
    the declarations before the line, the last one first. *)
Fixpoint nearest_lower_group (rds : list line_class) (level : N) : option string :=
  match rds with
  | [] => None
  | GroupDeclaration lv name :: r =>
      if lv <? level then Some name else nearest_lower_group r level
  | _ :: r => nearest_lower_group r level
  end.

(** The column identifier and the DDL as the specification words them.
    The identifier is the name with every upper-case letter replaced by
    its lower-case letter and every hyphen by an underscore, character by
    character, as the two alphabets below pair them. *)
Definition identifier_from : string := "ABCDEFGHIJKLMNOPQRSTUVWXYZ-".
Definition identifier_to : string := "abcdefghijklmnopqrstuvwxyz_".

Fixpoint translate_char (from to : string) (c : ascii) : ascii :=
  match from, to with
  | String a from', String b to' =>
      if Ascii.eqb c a then b else translate_char from' to' c
  | _, _ => c
  end.

Fixpoint column_identifier (name : string) : string :=
  match name with
  | EmptyString => EmptyString
  | String c r =>
      String (translate_char identifier_from identifier_to c) (column_identifier r)
  end.

Definition column_clause (f : Field.t) : string :=
  "    " ++ column_identifier (Field.name f) ++ " " ++ Field.sql_type f.

Definition ddl_of (fs : list Field.t) (table_name : string) : string :=
  "CREATE TABLE bronze." ++ table_name ++ " (" ++ NL
  ++ String.concat ("," ++ NL) (map column_clause fs) ++ NL ++ ");".

(** The example copybook. *)
Definition example_copybook : string :=
  "01  CUSTOMER-RECORD." ++ NL ++
  "    05  CUSTOMER-ID       PIC 9(10)." ++ NL ++
  "    05  CUSTOMER-NAME." ++ NL ++
  "        10  FIRST-NAME    PIC X(30)." ++ NL ++
  "        10  LAST-NAME     PIC X(30)." ++ NL ++
  "    05  ACCOUNT-BALANCE   PIC S9(13)V99.".

(** [X(ds)] or [A(ds)] stands in [s] after [pre], and no match of the
    character pattern starts before it. *)
Definition first_char (s pre ds : string) : Prop :=
  (exists suf, s = pre ++ suf /\ char_pattern_at suf ds) /\
  forall pre' suf' ds',
    s = pre' ++ suf' -> char_pattern_at suf' ds' ->
    (String.length pre <= String.length pre')%nat.

(** [9(dp)V9(dq)] stands in [s] after [pre], and no match of the decimal
    pattern starts before it. *)
Definition first_decimal (s pre dp dq : string) : Prop :=
  (exists suf, s = pre ++ suf /\ decimal_pattern_at suf dp dq) /\
  forall pre' suf' dp' dq',
    s = pre' ++ suf' -> decimal_pattern_at suf' dp' dq' ->
    (String.length pre <= String.length pre')%nat.

(** The text after the name of a FieldDeclaration, as the optional part
    of the pattern of [parse] reads it: blanks, [PIC] or [PICTURE] in any
    case, blanks, and the clause [p], the longest run of characters that
    are neither blank nor a period. *)
Definition pic_clause_shape (rest p : string) : Prop :=
  exists ws kw ws' rest',
    rest = ws ++ kw ++ ws' ++ p ++ rest' /\
    all_chars is_space ws = true /\ ws <> EmptyString /\
    (upper kw = "PIC" \/ upper kw = "PICTURE") /\
    all_chars is_space ws' = true /\ ws' <> EmptyString /\
    all_chars is_pic_char p = true /\ p <> EmptyString /\
    starts_with_class is_pic_char rest' = false.

(** [declaration_shape] with the text [rest] after the name. *)
Definition declaration_parts (line : string) (level : N) (name rest : string) : Prop :=
  exists ws d1 d2 ws1,
    line = ws ++ String d1 (String d2 (ws1 ++ name ++ rest)) /\
    all_chars is_space ws = true /\
    is_digit d1 = true /\ is_digit d2 = true /\
    level = 10 * digit_value d1 + digit_value d2 /\
    all_chars is_space ws1 = true /\ ws1 <> EmptyString /\
    all_chars is_name_char name = true /\ name <> EmptyString /\
    starts_with_class is_name_char rest = false.

(** What a Field keeps of its declaration. *)
Definition field_key (f : Field.t) : N * string * option string :=
  (Field.level f, Field.name f, Field.pic f).

(** The FieldDeclarations of [ds], in order, as Fields keep them. *)
Definition declared_fields (ds : list line_class) : list (N * string * option string) :=
  flat_map (fun d => match d with
                     | FieldDeclaration l n p => [(l, n, Some p)]
                     | _ => []
                     end) ds.

(** ** The parser under the default limit on integer text *)

(** [sys.int_info.default_max_str_digits]. *)
Definition max_str_digits : nat := 4300.

Fixpoint repeat_char (c : ascii) (n : nat) : string :=
  match n with
  | O => EmptyString
  | S k => String c (repeat_char c k)
  end.

Module Limited.

(** [int (s)] on a run of digits: [ValueError] when the run has more
    digits than the limit. *)
Definition int (s : string) : py N :=
  if (max_str_digits <? String.length s)%nat then Raise ValueError else int s.

(** An integer in an f-string: [ValueError] when its decimal text has more
    digits than the limit. *)
Definition str (n : N) : py string :=
  if (max_str_digits <? String.length (str n))%nat then Raise ValueError
  else Ok (str n).

(** [_parse_pic]. *)
Definition _parse_pic (pic : string) : py (string * N) :=
  let pic := strip (upper pic) in
  match (if contains "V" pic then search match_decimal_at pic else None) with
  | Some (g1, g2) =>
      p <- int g1 ;;
      s <- int g2 ;;
      t1 <- str (p + s) ;;
      t2 <- str s ;;
      Ok ("DECIMAL(" ++ t1 ++ "," ++ t2 ++ ")", p + s)
  | None =>
      match search match_int_at pic with
      | Some g1 =>
          length <- int g1 ;;
          Ok (if 9 <? length then "BIGINT" else "INTEGER", length)
      | None =>
          match search match_char_at pic with
          | Some g1 =>
              length <- int g1 ;;
              t <- str length ;;
              Ok ("VARCHAR(" ++ t ++ ")", length)
          | None => Ok ("VARCHAR(255)", 255)
          end
      end
  end.

(** The body of the [for] loop of [parse] on one line. *)
Definition parse_line (self : CopybookParser) (line : string) : py CopybookParser :=
  if startswith "*" (strip line) || is_empty (strip line) then Ok self
  else
    match match_line line with
    | None => Ok self
    | Some (g1, name, pic) =>
        level <- int g1 ;;
        let stack := pop_while level (parent_stack self) in
        parent <- (if is_nil stack then Ok None
                   else t <- top stack ;; Ok (Some (snd t))) ;;
        match pic with
        | None =>
            Ok {| fields := fields self; parent_stack := (level, name) :: stack |}
        | Some p =>
            if is_empty p then
              Ok {| fields := fields self; parent_stack := (level, name) :: stack |}
            else
              r <- _parse_pic p ;;
              Ok {| fields := append_item (fields self)
                      (Field.mk level name (Some p) (fst r) (Some (snd r)) parent);
                    parent_stack := stack |}
        end
    end.

Fixpoint parse_lines (self : CopybookParser) (lines : list string) : py CopybookParser :=
  match lines with
  | [] => Ok self
  | line :: rest => self' <- parse_line self line ;; parse_lines self' rest
  end.

(** [parse]. *)
Definition parse (self : CopybookParser) (content : string)
  : py (CopybookParser * list Field.t) :=
  let self := {| fields := []; parent_stack := [] |} in
  self' <- parse_lines self (split_lines content) ;;
  Ok (self', fields self').

(** The route [/parse]. *)
Definition parse_route (copybook table_name : string) : py (list Field.t * string) :=
  r <- parse new_parser copybook ;;
  Ok (snd r, generate_ddl (fst r) table_name).

End Limited.

(** [10 ^ k]. *)
Fixpoint pow10 (k : nat) : N :=
  match k with
  | O => 1
  | S j => 10 * pow10 j
  end.

Arguments pow10 : simpl never.

(** * Properties *)

(** ** Strings *)

Lemma app_nil_r_str (s : string) : s ++ "" = s.
Proof. induction s as [|c s IH]; simpl; [reflexivity | now rewrite IH]. Qed.

Lemma app_assoc_str (a b c : string) : (a ++ b) ++ c = a ++ b ++ c.
Proof. induction a as [|x a IH]; simpl; [reflexivity | now rewrite IH]. Qed.

Lemma length_app_str (a b : string) :
  String.length (a ++ b) = (String.length a + String.length b)%nat.
Proof. induction a as [|x a IH]; simpl; [reflexivity | now rewrite IH]. Qed.

Lemma is_empty_true (s : string) : is_empty s = true <-> s = "".
Proof. destruct s; simpl; split; congruence. Qed.

Lemma is_empty_false (s : string) : is_empty s = false <-> s <> "".
Proof. destruct s; simpl; split; congruence. Qed.

Lemma all_chars_app (p : ascii -> bool) (a b : string) :
  all_chars p (a ++ b) = all_chars p a && all_chars p b.
Proof.
  induction a as [|x a IH]; simpl; [reflexivity|].
  now rewrite IH, andb_assoc.
Qed.

Lemma span_eq (p : ascii -> bool) (s : string) :
  fst (span p s) ++ snd (span p s) = s.
Proof.
  induction s as [|c s IH]; simpl; [reflexivity|].
  destruct (p c); [|reflexivity].
  destruct (span p s) as [a b]; simpl in *. now rewrite IH.
Qed.

Lemma span_all (p : ascii -> bool) (s : string) :
  all_chars p (fst (span p s)) = true.
Proof.
  induction s as [|c s IH]; simpl; [reflexivity|].
  destruct (p c) eqn:E; [|reflexivity].
  destruct (span p s) as [a b]; simpl in *. now rewrite E, IH.
Qed.

Lemma span_rest (p : ascii -> bool) (s : string) :
  starts_with_class p (snd (span p s)) = false.
Proof.
  induction s as [|c s IH]; simpl; [reflexivity|].
  destruct (p c) eqn:E; [|simpl; exact E].
  destruct (span p s) as [a b]; simpl in *. exact IH.
Qed.

Lemma span_stop (p : ascii -> bool) (b : string) :
  starts_with_class p b = false -> span p b = ("", b).
Proof. destruct b as [|c b]; simpl; [reflexivity|]. now intros ->. Qed.

Lemma span_app (p : ascii -> bool) (a b : string) :
  all_chars p a = true -> starts_with_class p b = false ->
  span p (a ++ b) = (a, b).
Proof.
  intros Ha Hb. induction a as [|x a IH]; simpl in *.
  - now apply span_stop.
  - apply andb_true_iff in Ha as [Hx Ha]. now rewrite Hx, IH.
Qed.

(** ** The matchers *)

Lemma lit_sound (p s r : string) : lit p s = Some r -> s = p ++ r.
Proof.
  revert s. induction p as [|a p IH]; intros s H; simpl in *.
  - congruence.
  - destruct s as [|b s]; [discriminate|].
    destruct (Ascii.eqb a b) eqn:E; [|discriminate].
    apply Ascii.eqb_eq in E. subst b. now rewrite (IH _ H).
Qed.

Lemma lit_complete (p r : string) : lit p (p ++ r) = Some r.
Proof.
  induction p as [|a p IH]; simpl; [reflexivity|].
  now rewrite Ascii.eqb_refl.
Qed.

Lemma run1_sound (p : ascii -> bool) (s a r : string) :
  run1 p s = Some (a, r) ->
  s = a ++ r /\ all_chars p a = true /\ a <> "" /\ starts_with_class p r = false.
Proof.
  unfold run1. intros H.
  pose proof (span_eq p s) as He. pose proof (span_all p s) as Ha.
  pose proof (span_rest p s) as Hr.
  destruct (span p s) as [x y]; simpl in *.
  destruct (is_empty x) eqn:E; [discriminate|].
  injection H as <- <-. apply is_empty_false in E. auto.
Qed.

Lemma run1_complete (p : ascii -> bool) (a r : string) :
  all_chars p a = true -> a <> "" -> starts_with_class p r = false ->
  run1 p (a ++ r) = Some (a, r).
Proof.
  intros Ha Hne Hr. unfold run1. rewrite (span_app p a r Ha Hr).
  apply is_empty_false in Hne. now rewrite Hne.
Qed.

Lemma search_some {A : Type} (m : string -> option A) (s : string) (r : A) :
  search m s = Some r ->
  exists pre suf,
    s = pre ++ suf /\ m suf = Some r /\
    forall pre' suf', s = pre' ++ suf' ->
      (String.length pre' < String.length pre)%nat -> m suf' = None.
Proof.
  induction s as [|c s IH]; simpl; intros H.
  - destruct (m "") eqn:E; [|discriminate]. injection H as ->.
    exists "", ""; repeat split; auto. simpl; intros; lia.
  - destruct (m (String c s)) eqn:E.
    + injection H as ->. exists "", (String c s); repeat split; auto.
      simpl; intros; lia.
    + destruct (IH H) as (pre & suf & -> & Hm & Hmin).
      exists (String c pre), suf; repeat split; auto.
      intros pre' suf' Heq Hlt. destruct pre' as [|c' pre']; simpl in *.
      * now subst suf'.
      * injection Heq as <- Heq. apply (Hmin pre' suf' Heq). lia.
Qed.

Lemma search_first {A : Type} (m : string -> option A) (pre suf : string) (r : A) :
  m suf = Some r ->
  (forall pre' suf', pre ++ suf = pre' ++ suf' ->
     (String.length pre' < String.length pre)%nat -> m suf' = None) ->
  search m (pre ++ suf) = Some r.
Proof.
  induction pre as [|c pre IH]; intros Hm Hmin.
  - simpl. destruct suf as [|d suf]; simpl; now rewrite Hm.
  - simpl. rewrite (Hmin "" (String c (pre ++ suf))) by (simpl; auto; lia).
    apply IH; [exact Hm|].
    intros pre' suf' Heq Hlt. apply (Hmin (String c pre') suf').
    + simpl. now rewrite Heq.
    + simpl. lia.
Qed.

Lemma int_acc_ok (ds : string) :
  all_chars is_digit ds = true -> forall acc, exists n, int_acc acc ds = Ok n.
Proof.
  induction ds as [|c ds IH]; simpl; intros H acc.
  - now exists acc.
  - apply andb_true_iff in H as [Hc Hds]. rewrite Hc. now apply IH.
Qed.

Lemma int_acc_digits (ds : string) (acc n : N) :
  int_acc acc ds = Ok n -> all_chars is_digit ds = true.
Proof.
  revert acc. induction ds as [|c ds IH]; simpl; intros acc H; [reflexivity|].
  destruct (is_digit c); [|discriminate]. simpl. now apply (IH _ H).
Qed.

Lemma int_of_number (ds : string) : is_number ds -> exists n, int ds = Ok n.
Proof.
  intros [Hd Hne]. unfold int. apply is_empty_false in Hne. rewrite Hne.
  now apply int_acc_ok.
Qed.

Lemma int_ok_number (ds : string) (n : N) : int ds = Ok n -> is_number ds.
Proof.
  unfold int. destruct (is_empty ds) eqn:E; [discriminate|].
  intros H. split; [now apply (int_acc_digits _ _ _ H) | now apply is_empty_false].
Qed.

Ltac matcher_inv H :=
  repeat match type of H with
         | match lit ?p ?s with _ => _ end = _ =>
             let E := fresh "E" in
             destruct (lit p s) eqn:E; [apply lit_sound in E | discriminate H]
         | match run1 ?p ?s with _ => _ end = _ =>
             let E := fresh "E" in
             destruct (run1 p s) as [[? ?]|] eqn:E;
             [apply run1_sound in E; destruct E as (? & ? & ? & ?) | discriminate H]
         end.

Lemma match_int_at_sound (s ds : string) :
  match_int_at s = Some ds -> int_pattern_at s ds.
Proof.
  unfold match_int_at. intros H. matcher_inv H. injection H as ->.
  subst. split; [split; assumption|]. now eexists.
Qed.

Lemma match_int_at_complete (s ds : string) :
  int_pattern_at s ds -> match_int_at s = Some ds.
Proof.
  intros [[Hd Hne] [post ->]]. unfold match_int_at.
  rewrite lit_complete, run1_complete by (assumption || reflexivity).
  now rewrite lit_complete.
Qed.

Lemma match_decimal_at_sound (s dp dq : string) :
  match_decimal_at s = Some (dp, dq) -> decimal_pattern_at s dp dq.
Proof.
  unfold match_decimal_at. intros H. matcher_inv H. injection H as -> ->.
  subst. repeat split; try assumption. now eexists.
Qed.

Lemma match_decimal_at_complete (s dp dq : string) :
  decimal_pattern_at s dp dq -> match_decimal_at s = Some (dp, dq).
Proof.
  intros ([Hp Hpn] & [Hq Hqn] & [post ->]). unfold match_decimal_at.
  rewrite lit_complete, run1_complete by (assumption || reflexivity).
  rewrite lit_complete, run1_complete by (assumption || reflexivity).
  now rewrite lit_complete.
Qed.

Lemma match_char_at_sound (s ds : string) :
  match_char_at s = Some ds -> char_pattern_at s ds.
Proof.
  unfold match_char_at. intros H. destruct s as [|c s]; [discriminate|].
  destruct (Ascii.eqb c "X" || Ascii.eqb c "A") eqn:Ec; [|discriminate].
  matcher_inv H. injection H as ->. subst.
  split; [split; assumption|]. exists c. eexists. split; [|reflexivity].
  apply orb_true_iff in Ec as [Ec|Ec]; apply Ascii.eqb_eq in Ec; auto.
Qed.

(** A decimal match starts with an integer match. *)
Lemma decimal_has_int (s : string) : has_decimal s -> has_int s.
Proof.
  intros (pre & suf & dp & dq & -> & Hp & _ & post & ->).
  exists pre. eexists. exists dp. split; [reflexivity|].
  split; [assumption|]. now eexists.
Qed.

Lemma search_decimal_none (s : string) :
  ~ has_decimal s -> search match_decimal_at s = None.
Proof.
  intros Hn. destruct (search match_decimal_at s) as [[dp dq]|] eqn:E; [|reflexivity].
  exfalso. apply Hn. apply search_some in E as (pre & suf & -> & Hm & _).
  exists pre, suf, dp, dq. split; [reflexivity|]. now apply match_decimal_at_sound.
Qed.

Lemma search_int_none (s : string) :
  ~ has_int s -> search match_int_at s = None.
Proof.
  intros Hn. destruct (search match_int_at s) as [ds|] eqn:E; [|reflexivity].
  exfalso. apply Hn. apply search_some in E as (pre & suf & -> & Hm & _).
  exists pre, suf, ds. split; [reflexivity|]. now apply match_int_at_sound.
Qed.

Lemma search_char_none (s : string) :
  ~ has_char s -> search match_char_at s = None.
Proof.
  intros Hn. destruct (search match_char_at s) as [ds|] eqn:E; [|reflexivity].
  exfalso. apply Hn. apply search_some in E as (pre & suf & -> & Hm & _).
  exists pre, suf, ds. split; [reflexivity|]. now apply match_char_at_sound.
Qed.

Lemma search_int_first (s pre ds : string) :
  first_int s pre ds -> search match_int_at s = Some ds.
Proof.
  intros [(suf & -> & Hat) Hmin].
  apply search_first; [now apply match_int_at_complete|].
  intros pre' suf' Heq Hlt.
  destruct (match_int_at suf') as [ds'|] eqn:E; [|reflexivity].
  apply match_int_at_sound in E. specialize (Hmin pre' suf' ds' Heq E). lia.
Qed.

(** [_parse_pic] raises nothing. *)
Lemma parse_pic_total (pic : string) : exists r, _parse_pic pic = Ok r.
Proof.
  unfold _parse_pic.
  destruct (if contains "V" (strip (upper pic))
            then search match_decimal_at (strip (upper pic)) else None)
    as [[g1 g2]|] eqn:Ed.
  - destruct (contains "V" (strip (upper pic))); [|discriminate].
    apply search_some in Ed as (pre & suf & _ & Hm & _).
    apply match_decimal_at_sound in Hm as (Hp & Hq & _).
    destruct (int_of_number _ Hp) as [p ->], (int_of_number _ Hq) as [q ->].
    simpl. now eexists.
  - destruct (search match_int_at (strip (upper pic))) as [g1|] eqn:Ei.
    + apply search_some in Ei as (pre & suf & _ & Hm & _).
      apply match_int_at_sound in Hm as [Hn _].
      destruct (int_of_number _ Hn) as [n ->]. simpl. now eexists.
    + destruct (search match_char_at (strip (upper pic))) as [g1|] eqn:Ec.
      * apply search_some in Ec as (pre & suf & _ & Hm & _).
        apply match_char_at_sound in Hm as [Hn _].
        destruct (int_of_number _ Hn) as [n ->]. simpl. now eexists.
      * now eexists.
Qed.

Lemma search_none {A : Type} (m : string -> option A) (s : string) :
  search m s = None -> forall pre suf, s = pre ++ suf -> m suf = None.
Proof.
  induction s as [|c s IH]; simpl; intros H pre suf Heq.
  - destruct (m "") eqn:E; [discriminate|].
    destruct pre; [simpl in Heq; now subst suf | discriminate].
  - destruct (m (String c s)) eqn:E; [discriminate|].
    destruct pre as [|c' pre]; simpl in Heq.
    + now subst suf.
    + injection Heq as _ Heq. now apply (IH H pre suf).
Qed.

Lemma no_decimal_by_search (s : string) :
  search match_decimal_at s = None -> ~ has_decimal s.
Proof.
  intros H (pre & suf & dp & dq & Heq & Hat).
  apply match_decimal_at_complete in Hat.
  rewrite (search_none _ _ H pre suf Heq) in Hat. discriminate.
Qed.

Lemma no_int_by_search (s : string) :
  search match_int_at s = None -> ~ has_int s.
Proof.
  intros H (pre & suf & ds & Heq & Hat).
  apply match_int_at_complete in Hat.
  rewrite (search_none _ _ H pre suf Heq) in Hat. discriminate.
Qed.

Lemma match_char_at_complete (s ds : string) :
  char_pattern_at s ds -> match_char_at s = Some ds.
Proof.
  intros [[Hd Hne] (c & post & Hc & ->)]. unfold match_char_at.
  replace (Ascii.eqb c "X" || Ascii.eqb c "A") with true
    by (destruct Hc as [-> | ->]; reflexivity).
  rewrite lit_complete, run1_complete by (assumption || reflexivity).
  now rewrite lit_complete.
Qed.

Lemma no_char_by_search (s : string) :
  search match_char_at s = None -> ~ has_char s.
Proof.
  intros H (pre & suf & ds & Heq & Hat).
  apply match_char_at_complete in Hat.
  rewrite (search_none _ _ H pre suf Heq) in Hat. discriminate.
Qed.

Lemma decimal_branch_none (s : string) :
  ~ has_decimal s ->
  (if contains "V" s then search match_decimal_at s else None) = None.
Proof.
  intros H. rewrite (search_decimal_none s H). now destruct (contains "V" s).
Qed.

Lemma contains_app (c : ascii) (a b : string) :
  contains c (a ++ b) = contains c a || contains c b.
Proof.
  induction a as [|x a IH]; simpl; [reflexivity|].
  now rewrite IH, orb_assoc.
Qed.

(** The decimal rule on a clause that, once normalized, starts with
    [9(dp)V9(dq)]: the type is [DECIMAL(p+q,q)] and the length [p+q]. *)
Lemma parse_pic_decimal_form (pic dp dq post : string) (p q : N) :
  normalize pic = "9(" ++ dp ++ ")V9(" ++ dq ++ ")" ++ post ->
  int dp = Ok p -> int dq = Ok q ->
  _parse_pic pic = Ok ("DECIMAL(" ++ str (p + q) ++ "," ++ str q ++ ")", p + q).
Proof.
  intros Hn Hp Hq. unfold _parse_pic. fold (normalize pic). rewrite Hn.
  assert (Hc : contains "V" ("9(" ++ dp ++ ")V9(" ++ dq ++ ")" ++ post) = true).
  { simpl. rewrite contains_app. simpl. now rewrite orb_true_r. }
  rewrite Hc.
  assert (Hs : search match_decimal_at ("9(" ++ dp ++ ")V9(" ++ dq ++ ")" ++ post)
               = Some (dp, dq)).
  { apply (search_first match_decimal_at "").
    - apply match_decimal_at_complete. repeat split.
      + now apply (int_ok_number _ _ Hp).
      + now apply (int_ok_number _ _ Hp).
      + now apply (int_ok_number _ _ Hq).
      + now apply (int_ok_number _ _ Hq).
      + now eexists.
    - simpl. intros; lia. }
  rewrite Hs, Hp, Hq. reflexivity.
Qed.

(** C2.  The clause [9(5)V99] of the comment above the decimal rule of
    [_parse_pic] is not read by that rule, whose pattern asks for a
    parenthesized scale [V9(S)]: the integer rule takes it, and the result
    is [INTEGER] with length 5, not [DECIMAL(7,2)] with length 7.  With the
    scale written [9(2)] the result is the decimal one. *)
Theorem parse_pic_9_5_V99 :
  _parse_pic "9(5)V99" = Ok ("INTEGER", 5) /\
  _parse_pic "9(5)V99" <> Ok ("DECIMAL(7,2)", 7) /\
  _parse_pic "9(5)V9(2)" = Ok ("DECIMAL(7,2)", 7).
Proof. split; [reflexivity | split; [discriminate | reflexivity]]. Qed.

(** C7.  When [9(ds)] is the first match of the integer pattern in the
    normalized clause and the decimal pattern matches nowhere in it, the
    length is the number [n] that [ds] denotes and the type is [BIGINT] if
    [n > 9] and [INTEGER] otherwise; [9(10)] gives [BIGINT] with length 10
    and [9(9)] gives [INTEGER] with length 9. *)
Theorem parse_pic_integer :
  (forall (pic pre ds : string) (n : N),
      first_int (normalize pic) pre ds ->
      ~ has_decimal (normalize pic) ->
      int ds = Ok n ->
      _parse_pic pic = Ok (if 9 <? n then "BIGINT" else "INTEGER", n)) /\
  _parse_pic "9(10)" = Ok ("BIGINT", 10) /\
  _parse_pic "9(9)" = Ok ("INTEGER", 9).
Proof.
  split; [|split; reflexivity].
  intros pic pre ds n Hf Hd Hn. unfold _parse_pic. fold (normalize pic).
  rewrite (decimal_branch_none _ Hd), (search_int_first _ _ _ Hf), Hn.
  reflexivity.
Qed.

(** An instance: the clause of [ACCOUNT-BALANCE] in the example. *)
Lemma parse_pic_integer_witness :
  first_int (normalize "S9(13)V99") "S" "13" /\
  ~ has_decimal (normalize "S9(13)V99") /\
  int "13" = Ok 13 /\
  _parse_pic "S9(13)V99" = Ok ("BIGINT", 13).
Proof.
  assert (Hf : first_int (normalize "S9(13)V99") "S" "13").
  { split.
    - exists "9(13)V99". split; [reflexivity|].
      split; [split; [reflexivity | discriminate] | now exists "V99"].
    - intros pre' suf' ds' Heq Hat.
      destruct pre' as [|c pre']; [|simpl; lia].
      exfalso. simpl in Heq. subst suf'.
      destruct Hat as [_ [post Hpost]]. discriminate Hpost. }
  assert (Hd : ~ has_decimal (normalize "S9(13)V99"))
    by (apply no_decimal_by_search; reflexivity).
  split; [exact Hf | split; [exact Hd | split; [reflexivity|]]].
  exact (proj1 parse_pic_integer "S9(13)V99" "S" "13" 13 Hf Hd eq_refl).
Defined.

(** ** The loop body and the classifier *)

Lemma match_line_level (line g1 name : string) (pic : option string) :
  match_line line = Some (g1, name, pic) ->
  exists d1 d2,
    g1 = String d1 (String d2 "") /\ is_digit d1 = true /\ is_digit d2 = true /\
    int g1 = Ok (10 * digit_value d1 + digit_value d2).
Proof.
  unfold match_line. intros H.
  destruct (lstrip line) as [|d1 [|d2 r0]]; try discriminate.
  destruct (is_digit d1 && is_digit d2) eqn:Ed; [|discriminate].
  matcher_inv H. injection H as <- _ _.
  apply andb_true_iff in Ed as [E1 E2].
  exists d1, d2. split; [reflexivity | split; [exact E1 | split; [exact E2|]]].
  unfold int. simpl. now rewrite E1, E2.
Qed.

Lemma pic_tail_not_empty (s p : string) : pic_tail s = Some p -> is_empty p = false.
Proof.
  unfold pic_tail, pic_tail_with. intros H.
  destruct (run1 is_space s) as [[ws r]|]; [|discriminate].
  destruct (match lit_ci "PIC" r with
            | Some r1 =>
                match run1 is_space r1 with
                | Some (_, r2) =>
                    match run1 is_pic_char r2 with
                    | Some (tok, _) => Some tok
                    | None => None
                    end
                | None => None
                end
            | None => None
            end) as [tok|] eqn:E1.
  - injection H as ->.
    destruct (lit_ci "PIC" r); [|discriminate].
    matcher_inv E1. injection E1 as ->. now apply is_empty_false.
  - destruct (lit_ci "PICTURE" r); [|discriminate].
    matcher_inv H. injection H as ->. now apply is_empty_false.
Qed.

Lemma match_line_pic (line g1 name p : string) :
  match_line line = Some (g1, name, Some p) -> is_empty p = false.
Proof.
  unfold match_line. intros H.
  destruct (lstrip line) as [|d1 [|d2 r0]]; try discriminate.
  destruct (is_digit d1 && is_digit d2); [|discriminate].
  matcher_inv H. injection H as _ _ H. now apply pic_tail_not_empty in H.
Qed.

Lemma read_parent (stack : list (N * string)) :
  (if is_nil stack then Ok None else t <- top stack ;; Ok (Some (snd t)))
  = Ok (parent_of stack).
Proof. destruct stack as [|[l n] rest]; reflexivity. Qed.

(** What the loop body does on a line, by the class of the line. *)
Lemma parse_line_classify (self : CopybookParser) (line : string) :
  match classify line with
  | Skip => parse_line self line = Ok self
  | GroupDeclaration l n =>
      parse_line self line =
      Ok {| fields := fields self;
            parent_stack := (l, n) :: pop_while l (parent_stack self) |}
  | FieldDeclaration l n p =>
      exists ty len,
        _parse_pic p = Ok (ty, len) /\
        parse_line self line =
        Ok {| fields := append_item (fields self)
                (Field.mk l n (Some p) ty (Some len)
                   (parent_of (pop_while l (parent_stack self))));
              parent_stack := pop_while l (parent_stack self) |}
  end.
Proof.
  unfold classify, parse_line.
  destruct (startswith "*" (strip line) || is_empty (strip line)); [reflexivity|].
  destruct (match_line line) as [[[g1 name] pic]|] eqn:Em; [|reflexivity].
  destruct (match_line_level _ _ _ _ Em) as (d1 & d2 & _ & _ & _ & ->).
  simpl. rewrite read_parent. simpl.
  destruct pic as [p|]; [|reflexivity].
  rewrite (match_line_pic _ _ _ _ Em).
  destruct (parse_pic_total p) as [[ty len] Hp]. exists ty, len.
  split; [exact Hp|]. now rewrite Hp.
Qed.

Lemma parse_line_total (self : CopybookParser) (line : string) :
  exists self', parse_line self line = Ok self'.
Proof.
  pose proof (parse_line_classify self line) as H.
  destruct (classify line); [eexists; exact H | eexists; exact H |].
  destruct H as (ty & len & _ & ->). eexists; reflexivity.
Qed.

Lemma parse_line_fields (self : CopybookParser) (line : string) :
  exists self',
    parse_line self line = Ok self' /\
    List.length (fields self') =
    (List.length (fields self) + count_fields [classify line])%nat.
Proof.
  pose proof (parse_line_classify self line) as H.
  unfold count_fields. destruct (classify line); simpl.
  - eexists; split; [exact H | lia].
  - eexists; split; [exact H | simpl; lia].
  - destruct H as (ty & len & _ & ->). eexists; split; [reflexivity|].
    simpl. unfold append_item. rewrite length_app. simpl. lia.
Qed.

Lemma count_fields_cons (d : line_class) (ds : list line_class) :
  count_fields (d :: ds) = (count_fields [d] + count_fields ds)%nat.
Proof. unfold count_fields. simpl. destruct (is_field d); reflexivity. Qed.

Lemma parse_lines_fields (lines : list string) (self : CopybookParser) :
  exists self',
    parse_lines self lines = Ok self' /\
    List.length (fields self') =
    (List.length (fields self) + count_fields (map classify lines))%nat.
Proof.
  revert self. induction lines as [|line rest IH]; intros self; simpl.
  - exists self. split; [reflexivity | unfold count_fields; simpl; lia].
  - destruct (parse_line_fields self line) as (s1 & -> & H1). simpl.
    destruct (IH s1) as (s2 & -> & H2). exists s2. split; [reflexivity|].
    rewrite count_fields_cons. lia.
Qed.

Lemma parse_total (self : CopybookParser) (content : string) :
  exists self', parse self content = Ok (self', fields self').
Proof.
  unfold parse.
  destruct (parse_lines_fields (split_lines content)
              {| fields := []; parent_stack := [] |}) as (s & -> & _).
  now exists s.
Qed.

(** C9.  On every input [parse] returns, and the number of Fields it
    returns is the number of lines classified FieldDeclaration. *)
Theorem field_count (self : CopybookParser) (content : string) :
  exists self' fs,
    parse self content = Ok (self', fs) /\
    List.length fs = count_fields (map classify (split_lines content)).
Proof.
  unfold parse.
  destruct (parse_lines_fields (split_lines content)
              {| fields := []; parent_stack := [] |}) as (s & -> & H).
  exists s, (fields s). split; [reflexivity | exact H].
Qed.

(** C10.  [parse] starts from an empty field list and an empty group
    stack whatever the instance held: its result, and the DDL generated
    after it, are the same on every instance, one left by an earlier call
    of [parse] included. *)
Theorem parse_resets (self1 self2 : CopybookParser) (content earlier table_name : string) :
  parse self1 content = parse self2 content /\
  (r <- parse self1 content ;; Ok (snd r, generate_ddl (fst r) table_name))
  = parse_route content table_name /\
  (r0 <- parse self1 earlier ;; parse (fst r0) content) = parse new_parser content.
Proof.
  split; [reflexivity | split; [reflexivity|]].
  destruct (parse_total self1 earlier) as [s ->]. reflexivity.
Qed.

(** ** The DDL *)

Lemma fold_append_item {A B : Type} (g : A -> B) (xs : list A) (acc : list B) :
  fold_left (fun cols x => append_item cols (g x)) xs acc = (acc ++ map g xs)%list.
Proof.
  revert acc. induction xs as [|x xs IH]; intros acc; simpl.
  - now rewrite app_nil_r.
  - rewrite IH. unfold append_item. now rewrite <- app_assoc.
Qed.

(** Lower-casing and then replacing the hyphen is the pairing of the two
    alphabets. *)
Lemma lower_then_replace (c : ascii) :
  (if Ascii.eqb (lower_char c) "-" then "_"%char else lower_char c)
  = translate_char identifier_from identifier_to c.
Proof. destruct c as [[] [] [] [] [] [] [] []]; reflexivity. Qed.

Lemma column_identifier_eq (name : string) :
  replace_char "-" "_" (lower name) = column_identifier name.
Proof.
  unfold replace_char, lower.
  induction name as [|c name IH]; cbn [map_str column_identifier]; [reflexivity|].
  now rewrite IH, lower_then_replace.
Qed.

Lemma col_eq (f : Field.t) : col f = column_clause f.
Proof. unfold col, column_clause. now rewrite column_identifier_eq. Qed.

Lemma generate_ddl_eq (self : CopybookParser) (table_name : string) :
  generate_ddl self table_name = ddl_of (fields self) table_name.
Proof.
  unfold generate_ddl, ddl_of.
  rewrite fold_append_item. simpl app.
  rewrite (map_ext col column_clause col_eq).
  now rewrite !app_assoc_str.
Qed.

(** C8.  For the Field list [fs] that [parse] returns and leaves in the
    instance, the DDL is [CREATE TABLE bronze.<table_name> (], a line
    feed, the column clauses of the Fields of [fs] in declaration order
    joined by a comma and a line feed, a line feed and [);], the table
    name standing as it is; a column clause is four spaces, the name with
    its upper-case letters replaced by lower-case ones and its hyphens by
    underscores, a space, and the SQL type.  So [CUSTOMER-ID] and
    [First-Name] give the columns [customer_id] and [first_name].  The
    empty input gives the empty Field list, and the DDL of the empty list
    has nothing between the two line feeds. *)
Theorem generate_ddl_format :
  (forall (self0 : CopybookParser) (content : string)
          (self : CopybookParser) (fs : list Field.t) (table_name : string),
      parse self0 content = Ok (self, fs) ->
      generate_ddl self table_name = ddl_of fs table_name) /\
  generate_ddl
    {| fields :=
         [Field.mk 5 "CUSTOMER-ID" (Some "9(10)") "BIGINT" (Some 10)
            (Some "CUSTOMER-RECORD");
          Field.mk 10 "First-Name" (Some "x(30)") "VARCHAR(30)" (Some 30)
            (Some "CUSTOMER-NAME")];
       parent_stack := [(5, "CUSTOMER-NAME"); (1, "CUSTOMER-RECORD")] |}
    "Customer-Table"
  = "CREATE TABLE bronze.Customer-Table (" ++ NL ++
    "    customer_id BIGINT," ++ NL ++
    "    first_name VARCHAR(30)" ++ NL ++
    ");" /\
  (forall self : CopybookParser,
      parse self "" = Ok ({| fields := []; parent_stack := [] |}, [])) /\
  (forall (stack : list (N * string)) (table_name : string),
      generate_ddl {| fields := []; parent_stack := stack |} table_name
      = "CREATE TABLE bronze." ++ table_name ++ " (" ++ NL ++ NL ++ ");").
Proof.
  split; [|split; [reflexivity | split; [reflexivity|]]].
  - intros self0 content self fs table_name H. unfold parse in H.
    destruct (parse_lines _ (split_lines content)) as [s|e]; [|discriminate].
    simpl in H. injection H as <- <-. apply generate_ddl_eq.
  - intros stack table_name. rewrite generate_ddl_eq. reflexivity.
Qed.

(** An instance: one field. *)
Lemma generate_ddl_format_witness :
  parse new_parser "05  CUSTOMER-ID  PIC 9(10)."
  = Ok ({| fields := [Field.mk 5 "CUSTOMER-ID" (Some "9(10)") "BIGINT" (Some 10) None];
           parent_stack := [] |},
        [Field.mk 5 "CUSTOMER-ID" (Some "9(10)") "BIGINT" (Some 10) None]) /\
  generate_ddl
    {| fields := [Field.mk 5 "CUSTOMER-ID" (Some "9(10)") "BIGINT" (Some 10) None];
       parent_stack := [] |} "t"
  = ddl_of [Field.mk 5 "CUSTOMER-ID" (Some "9(10)") "BIGINT" (Some 10) None] "t".
Proof.
  split; [reflexivity|].
  exact (proj1 generate_ddl_format new_parser "05  CUSTOMER-ID  PIC 9(10)."
           _ _ "t" eq_refl).
Defined.

(** ** The pattern of a declaration *)

Lemma digit_not_space (c : ascii) : is_digit c = true -> is_space c = false.
Proof.
  destruct c as [[] [] [] [] [] [] [] []]; intros H;
    solve [reflexivity | discriminate H].
Qed.

Lemma digit_not_star (c : ascii) : is_digit c = true -> Ascii.eqb c "*" = false.
Proof.
  destruct c as [[] [] [] [] [] [] [] []]; intros H;
    solve [reflexivity | discriminate H].
Qed.

Lemma name_char_not_space (c : ascii) : is_name_char c = true -> is_space c = false.
Proof.
  destruct c as [[] [] [] [] [] [] [] []]; intros H;
    solve [reflexivity | discriminate H].
Qed.

Lemma name_char_cases (c : ascii) :
  is_name_char c = true <->
  (is_upper c = true \/ is_lower c = true \/ is_digit c = true \/ c = "-"%char).
Proof.
  unfold is_name_char. rewrite !orb_true_iff, N.eqb_eq.
  split.
  - intros [[[H|H]|H]|H]; auto.
    right; right; right. unfold code in H.
    rewrite <- (ascii_N_embedding c), H. reflexivity.
  - intros [H|[H|[H|H]]]; auto. subst c. now right.
Qed.

Lemma lstrip_app (ws r : string) :
  all_chars is_space ws = true -> starts_with_class is_space r = false ->
  lstrip (ws ++ r) = r.
Proof. intros Hw Hr. unfold lstrip. now rewrite (span_app _ _ _ Hw Hr). Qed.

Lemma strip_starts (ws r : string) (c : ascii) :
  all_chars is_space ws = true -> is_space c = false ->
  exists r', strip (ws ++ String c r) = String c r'.
Proof.
  intros Hw Hc. unfold strip. rewrite (lstrip_app ws (String c r) Hw Hc).
  simpl. rewrite Hc. simpl. now eexists.
Qed.

Lemma starts_with_app (p : ascii -> bool) (a b : string) :
  a <> "" -> starts_with_class p (a ++ b) = starts_with_class p a.
Proof. destruct a; [congruence | reflexivity]. Qed.

Lemma name_starts_not_space (name rest : string) :
  all_chars is_name_char name = true -> name <> "" ->
  starts_with_class is_space (name ++ rest) = false.
Proof.
  intros Ha Hne. destruct name as [|c name]; [congruence|]. simpl in *.
  apply andb_true_iff in Ha as [Hc _]. now apply name_char_not_space.
Qed.

(** What a match of the pattern of [parse] says of the line. *)
Lemma match_line_shape (line g1 name : string) (pic : option string) :
  match_line line = Some (g1, name, pic) ->
  exists l, int g1 = Ok l /\ declaration_shape line l name.
Proof.
  unfold match_line. intros H.
  pose proof (span_eq is_space line) as Hl.
  pose proof (span_all is_space line) as Hw.
  unfold lstrip in H.
  destruct (snd (span is_space line)) as [|d1 [|d2 r0]] eqn:Es; try discriminate.
  destruct (is_digit d1 && is_digit d2) eqn:Ed; [|discriminate].
  apply andb_true_iff in Ed as [E1 E2].
  matcher_inv H. injection H as <- <- _. subst.
  exists (10 * digit_value d1 + digit_value d2). split.
  - unfold int. simpl. now rewrite E1, E2.
  - exists (fst (span is_space line)), d1, d2, s, s2.
    rewrite Hl. repeat split; assumption.
Qed.

(** A line of that shape is matched, whatever the case of its letters. *)
Lemma shape_match_line (line : string) (l : N) (name : string) :
  declaration_shape line l name ->
  startswith "*" (strip line) || is_empty (strip line) = false /\
  exists g1 pic, match_line line = Some (g1, name, pic) /\ int g1 = Ok l.
Proof.
  intros (ws & d1 & d2 & ws1 & rest & -> & Hw & E1 & E2 & -> & Hw1 & Hn1 & Hn & Hnn & Hr).
  pose proof (digit_not_space _ E1) as Hs1.
  split.
  - destruct (strip_starts ws (String d2 (ws1 ++ name ++ rest)) d1 Hw Hs1) as [r' ->].
    simpl. now rewrite (digit_not_star _ E1).
  - unfold match_line.
    rewrite (lstrip_app ws (String d1 (String d2 (ws1 ++ name ++ rest))) Hw Hs1).
    rewrite E1, E2. simpl.
    rewrite (run1_complete is_space ws1 (name ++ rest) Hw1 Hn1
               (name_starts_not_space name rest Hn Hnn)).
    rewrite (run1_complete is_name_char name rest Hn Hnn Hr).
    eexists. eexists. split; [reflexivity|].
    unfold int. simpl. now rewrite E1, E2.
Qed.

(** C6, as the code has it.  The line [05 customer-id PIC 9(10).] is not
    empty once trimmed, does not start with an asterisk, and has a name in
    lower case: it is classified FieldDeclaration, not Skip. *)
Lemma lowercase_name_is_declared :
  is_empty (strip "05 customer-id PIC 9(10).") = false /\
  startswith "*" (strip "05 customer-id PIC 9(10).") = false /\
  all_chars is_lower "customer" = true /\
  classify "05 customer-id PIC 9(10)." = FieldDeclaration 5 "customer-id" "9(10)" /\
  classify "05 customer-id PIC 9(10)." <> Skip.
Proof. repeat split; discriminate. Qed.

(** C6, amended.  A line is classified as a declaration of level [l] and
    name [n] exactly when it has the shape of the pattern, read without
    regard to case throughout: blanks, two digits that make [l], blanks,
    and [n], the longest run of letters of either case, digits and
    hyphens.  A name with lower-case letters is kept as it is written, and
    the keyword may be in lower case too. *)
Theorem classify_declaration :
  (forall (line : string) (l : N) (n : string),
      (classify line = GroupDeclaration l n \/
       exists p, classify line = FieldDeclaration l n p)
      <-> declaration_shape line l n) /\
  (forall c : ascii,
      is_name_char c = true <->
      (is_upper c = true \/ is_lower c = true \/ is_digit c = true \/ c = "-"%char)) /\
  classify "05 customer-id pic x(30)." = FieldDeclaration 5 "customer-id" "x(30)".
Proof.
  split; [|split; [exact name_char_cases | reflexivity]].
  intros line l n. split.
  - unfold classify.
    destruct (startswith "*" (strip line) || is_empty (strip line));
      [intros [H|[p H]]; discriminate|].
    destruct (match_line line) as [[[g1 name] pic]|] eqn:Em;
      [|intros [H|[p H]]; discriminate].
    destruct (match_line_shape _ _ _ _ Em) as (l' & -> & Hs).
    assert (Hgoal : l' = l /\ name = n -> declaration_shape line l n)
      by (intros [<- <-]; exact Hs).
    destruct pic as [p0|]; [destruct (is_empty p0)|];
      intros [H|[p H]]; try discriminate;
      injection H as <- <-; apply Hgoal; auto.
  - intros Hs. destruct (shape_match_line _ _ _ Hs) as (Ht & g1 & pic & Hm & Hi).
    unfold classify. rewrite Ht, Hm, Hi.
    destruct pic as [p|]; [|now left].
    destruct (is_empty p); [now left | right; now exists p].
Qed.

(** An instance: a group whose name has letters of both cases. *)
Lemma classify_declaration_witness :
  declaration_shape "  05  Customer-Name." 5 "Customer-Name" /\
  (classify "  05  Customer-Name." = GroupDeclaration 5 "Customer-Name" \/
   exists p, classify "  05  Customer-Name." = FieldDeclaration 5 "Customer-Name" p).
Proof.
  assert (Hs : declaration_shape "  05  Customer-Name." 5 "Customer-Name").
  { exists "  ", "0"%char, "5"%char, "  ", ".".
    repeat split; discriminate. }
  split; [exact Hs|].
  exact (proj2 (proj1 classify_declaration "  05  Customer-Name." 5 "Customer-Name") Hs).
Defined.

(** ** The group stack *)

Lemma pop_while_incl (l : N) (stack : list (N * string)) (x : N * string) :
  In x (pop_while l stack) -> In x stack.
Proof.
  induction stack as [|[l0 n0] rest IH]; simpl; [auto|].
  destruct (l <=? l0); [right; now apply IH | auto].
Qed.

Lemma pop_while_keeps (l : N) (stack : list (N * string)) (x : N * string) :
  In x stack -> fst x < l -> In x (pop_while l stack).
Proof.
  induction stack as [|[l0 n0] rest IH]; simpl; [auto|].
  intros Hin Hlt. destruct (l <=? l0) eqn:E; [|exact Hin].
  apply N.leb_le in E. destruct Hin as [<-|Hin]; [simpl in Hlt; lia | auto].
Qed.

Lemma pop_while_head (l : N) (stack rest : list (N * string)) (x : N * string) :
  pop_while l stack = x :: rest -> fst x < l.
Proof.
  induction stack as [|[l0 n0] below IH]; simpl; [discriminate|].
  destruct (l <=? l0) eqn:E; [exact IH|].
  intros H. injection H as <- _. simpl. now apply N.leb_gt in E.
Qed.

Lemma pop_while_increasing (l : N) (stack : list (N * string)) :
  increasing stack -> increasing (pop_while l stack).
Proof.
  induction stack as [|[l0 n0] below IH]; simpl; [auto|].
  intros [Hb Hi]. destruct (l <=? l0); [now apply IH | now split].
Qed.

Lemma pop_while_below (l : N) (stack : list (N * string)) :
  increasing stack -> Forall (fun e => fst e < l) (pop_while l stack).
Proof.
  induction stack as [|[l0 n0] below IH]; simpl; [constructor|].
  intros [Hb Hi]. destruct (l <=? l0) eqn:E; [now apply IH|].
  apply N.leb_gt in E. constructor; [exact E|].
  eapply Forall_impl; [|exact Hb]. simpl. intros e He. lia.
Qed.

Lemma filter_all {A : Type} (p : A -> bool) (xs : list A) :
  Forall (fun x => p x = true) xs -> filter p xs = xs.
Proof.
  induction 1 as [|x xs Hx _ IH]; simpl; [reflexivity|]. now rewrite Hx, IH.
Qed.

(** On a stack that grows to its top, the loop pops the entries of level
    at least [l], all of them and nothing else. *)
Lemma pop_while_filter (l : N) (stack : list (N * string)) :
  increasing stack ->
  pop_while l stack = filter (fun e => fst e <? l) stack.
Proof.
  induction stack as [|[l0 n0] below IH]; simpl; [reflexivity|].
  intros [Hb Hi]. destruct (l <=? l0) eqn:E.
  - apply N.leb_le in E. replace (l0 <? l) with false by (symmetry; apply N.ltb_ge; lia).
    now apply IH.
  - apply N.leb_gt in E. replace (l0 <? l) with true by (symmetry; apply N.ltb_lt; lia).
    f_equal. symmetry. apply filter_all.
    eapply Forall_impl; [|exact Hb]. simpl. intros e He. apply N.ltb_lt. lia.
Qed.

Lemma pop_while_idem (l : N) (stack : list (N * string)) :
  pop_while l (pop_while l stack) = pop_while l stack.
Proof.
  induction stack as [|[l0 n0] below IH]; simpl; [reflexivity|].
  destruct (l <=? l0) eqn:E; [exact IH|]. simpl. now rewrite E.
Qed.

Lemma resolve_increasing (stack : list (N * string)) (d : line_class) :
  increasing stack -> increasing (resolve_stack stack d).
Proof.
  intros H. destruct d as [|l n|l n p]; simpl.
  - exact H.
  - split; [now apply pop_while_below | now apply pop_while_increasing].
  - now apply pop_while_increasing.
Qed.

Lemma stack_after_snoc (ds : list line_class) (d : line_class) :
  stack_after (ds ++ [d]) = resolve_stack (stack_after ds) d.
Proof. unfold stack_after. now rewrite fold_left_app. Qed.

Lemma stack_after_increasing (ds : list line_class) : increasing (stack_after ds).
Proof.
  induction ds as [|d ds IH] using rev_ind; [exact I|].
  rewrite stack_after_snoc. now apply resolve_increasing.
Qed.

Lemma all_above_snoc (lv : N) (ds : list line_class) (d : line_class) :
  all_above lv (ds ++ [d]) <->
  all_above lv ds /\ match level_of d with Some l => lv < l | None => True end.
Proof.
  unfold all_above. rewrite Forall_app. split.
  - intros [H1 H2]. split; [exact H1 | now inversion H2].
  - intros [H1 H2]. split; [exact H1 | now constructor].
Qed.

(** The place of an element in a list that ends with [d]. *)
Lemma snoc_split {A : Type} (xs before after : list A) (d x : A) :
  (xs ++ [d] = before ++ x :: after)%list ->
  (after = [] /\ xs = before /\ d = x) \/
  (exists after', after = after' ++ [d] /\ xs = before ++ x :: after')%list.
Proof.
  intros H. destruct after as [|a after _] using rev_ind.
  - left. apply app_inj_tail in H as [H1 H2]. auto.
  - right. exists after. split; [|].
    + change (before ++ x :: after ++ [a])%list
        with (before ++ (x :: after) ++ [a])%list in H.
      rewrite app_assoc in H. apply app_inj_tail in H as [_ ->]. reflexivity.
    + change (before ++ x :: after ++ [a])%list
        with (before ++ (x :: after) ++ [a])%list in H.
      rewrite app_assoc in H. now apply app_inj_tail in H as [-> _].
Qed.

(** The entries of the stack are the groups still open. *)
Lemma stack_after_open (ds : list line_class) (lv : N) (g : string) :
  In (lv, g) (stack_after ds) <->
  exists before after,
    (ds = before ++ GroupDeclaration lv g :: after)%list /\ all_above lv after.
Proof.
  revert lv g. induction ds as [|d ds IH] using rev_ind; intros lv g.
  - split; [intros [] | intros (before & after & H & _)].
    destruct before; discriminate.
  - rewrite stack_after_snoc. split.
    + intros Hin.
      assert (Hold : In (lv, g) (stack_after ds) ->
                     match level_of d with Some l => lv < l | None => True end ->
                     exists before after,
                       (ds ++ [d] = before ++ GroupDeclaration lv g :: after)%list /\
                       all_above lv after).
      { intros H Hd. apply IH in H as (before & after & -> & Ha).
        exists before, (after ++ [d])%list. split.
        - now rewrite <- app_assoc.
        - apply all_above_snoc. now split. }
      destruct d as [|l n|l n p]; simpl in Hin.
      * now apply Hold.
      * destruct Hin as [Heq|Hin].
        -- injection Heq as -> ->. exists ds, []. split; [reflexivity | constructor].
        -- apply Hold; [now apply pop_while_incl in Hin|]. simpl.
           pose proof (pop_while_below l _ (stack_after_increasing ds)) as Hb.
           rewrite Forall_forall in Hb. exact (Hb _ Hin).
      * apply Hold; [now apply pop_while_incl in Hin|]. simpl.
        pose proof (pop_while_below l _ (stack_after_increasing ds)) as Hb.
        rewrite Forall_forall in Hb. exact (Hb _ Hin).
    + intros (before & after & Heq & Ha).
      apply snoc_split in Heq as [(-> & -> & ->)|(after' & -> & ->)].
      * simpl. now left.
      * apply all_above_snoc in Ha as [Ha Hd].
        assert (Hin : In (lv, g) (stack_after (before ++ GroupDeclaration lv g :: after')))
          by (apply IH; now exists before, after').
        destruct d as [|l n|l n p]; simpl in *.
        -- exact Hin.
        -- right. now apply pop_while_keeps.
        -- now apply pop_while_keeps.
Qed.

(** The parent read after the pop is the nearest open group. *)
Lemma parent_is_nearest_open (ds : list line_class) (l : N) (g : string) :
  parent_of (pop_while l (stack_after ds)) = Some g ->
  nearest_open_group ds l g.
Proof.
  intros H.
  destruct (pop_while l (stack_after ds)) as [|[lv g0] rest] eqn:Ep; [discriminate|].
  injection H as ->.
  pose proof (pop_while_head _ _ _ _ Ep) as Hlt. simpl in Hlt.
  assert (Hin : In (lv, g) (stack_after ds))
    by (apply (pop_while_incl l); rewrite Ep; now left).
  apply stack_after_open in Hin as (before & after & Hds & Ha).
  exists lv, after. split; [split; [now exists before | now split]|].
  intros lv' g' after' ((b' & Hafter) & Hlt' & Ha').
  assert (Hin' : In (lv', g') (stack_after ds)).
  { apply stack_after_open. exists (before ++ GroupDeclaration lv g :: b')%list, after'.
    split; [|exact Ha']. rewrite Hds, Hafter, <- app_assoc. reflexivity. }
  apply (pop_while_keeps l) in Hin'; [|exact Hlt'].
  assert (Hup : lv < lv').
  { unfold all_above in Ha. rewrite Forall_forall in Ha.
    specialize (Ha (GroupDeclaration lv' g')). simpl in Ha. apply Ha.
    rewrite Hafter. apply in_or_app. right. now left. }
  pose proof (pop_while_increasing l _ (stack_after_increasing ds)) as Hinc.
  rewrite Ep in Hinc, Hin'. destruct Hinc as [Hb _].
  destruct Hin' as [Heq|Hin'].
  - injection Heq as Heq _. lia.
  - rewrite Forall_forall in Hb. specialize (Hb _ Hin'). simpl in Hb. lia.
Qed.

Lemma no_parent_no_open (ds : list line_class) (l : N) :
  parent_of (pop_while l (stack_after ds)) = None ->
  forall lv g after, ~ open_group ds l lv g after.
Proof.
  intros H lv g after ((before & Hds) & Hlt & Ha).
  assert (Hin : In (lv, g) (stack_after ds))
    by (apply stack_after_open; now exists before, after).
  apply (pop_while_keeps l) in Hin; [|exact Hlt].
  destruct (pop_while l (stack_after ds)) as [|[lv0 g0] rest]; [exact Hin | discriminate].
Qed.

(** ** The scan and the group stack *)

Lemma parse_lines_app (self : CopybookParser) (a b : list string) :
  parse_lines self (a ++ b) = (s <- parse_lines self a ;; parse_lines s b).
Proof.
  revert self. induction a as [|x a IH]; intros self; simpl; [reflexivity|].
  destruct (parse_line self x) as [s|e]; simpl; [apply IH | reflexivity].
Qed.

Lemma parse_line_stack (self self' : CopybookParser) (line : string) :
  parse_line self line = Ok self' ->
  parent_stack self' = resolve_stack (parent_stack self) (classify line).
Proof.
  pose proof (parse_line_classify self line) as H.
  destruct (classify line) as [|l n|l n p]; simpl.
  - rewrite H. now intros [= <-].
  - rewrite H. now intros [= <-].
  - destruct H as (ty & len & _ & ->). now intros [= <-].
Qed.

Lemma parse_lines_stack (lines : list string) (self self' : CopybookParser) :
  parse_lines self lines = Ok self' ->
  parent_stack self' =
  fold_left resolve_stack (map classify lines) (parent_stack self).
Proof.
  revert self. induction lines as [|x lines IH]; intros self; simpl.
  - now intros [= <-].
  - destruct (parse_line self x) as [s|e] eqn:E; simpl; [|discriminate].
    intros H. rewrite (IH _ H). now rewrite (parse_line_stack _ _ _ E).
Qed.

Lemma state_after_stack (pre : list string) (st : CopybookParser) :
  state_after pre = Ok st -> parent_stack st = stack_after (map classify pre).
Proof. intros H. exact (parse_lines_stack _ _ _ H). Qed.

Lemma parse_line_keeps_fields (self self' : CopybookParser) (line : string) :
  parse_line self line = Ok self' ->
  exists more, fields self' = (fields self ++ more)%list.
Proof.
  pose proof (parse_line_classify self line) as H.
  destruct (classify line) as [|l n|l n p].
  - rewrite H. intros [= <-]. exists []. now rewrite app_nil_r.
  - rewrite H. intros [= <-]. exists []. simpl. now rewrite app_nil_r.
  - destruct H as (ty & len & _ & ->). intros [= <-]. now eexists.
Qed.

Lemma parse_lines_keep_fields (lines : list string) (self self' : CopybookParser) :
  parse_lines self lines = Ok self' ->
  exists more, fields self' = (fields self ++ more)%list.
Proof.
  revert self. induction lines as [|x lines IH]; intros self; simpl.
  - intros [= <-]. exists []. now rewrite app_nil_r.
  - destruct (parse_line self x) as [s|e] eqn:E; simpl; [|discriminate].
    intros H. destruct (IH _ H) as [m2 ->].
    destruct (parse_line_keeps_fields _ _ _ E) as [m1 ->].
    exists (m1 ++ m2)%list. now rewrite app_assoc.
Qed.

Lemma parse_lines_skips (lines : list string) (self : CopybookParser) :
  Forall (fun x => classify x = Skip) lines -> parse_lines self lines = Ok self.
Proof.
  induction 1 as [|x lines Hx _ IH]; simpl; [reflexivity|].
  pose proof (parse_line_classify self x) as H. rewrite Hx in H.
  now rewrite H.
Qed.

(** C4, as the code has it.  After the groups [A] (level 1) and [B]
    (level 5), the field [F] of level 3 pops [B]; the field [X] of level 10
    that follows gets the parent [A], although [B], of level 5, is the
    nearest group declared before it with a level below 10. *)
Lemma parent_skips_nearest_lower_group :
  parse new_parser
    ("01 A." ++ NL ++ "05 B." ++ NL ++ "03 F PIC X(1)." ++ NL ++ "10 X PIC X(1).")
  = Ok ({| fields :=
             [Field.mk 3 "F" (Some "X(1)") "VARCHAR(1)" (Some 1) (Some "A");
              Field.mk 10 "X" (Some "X(1)") "VARCHAR(1)" (Some 1) (Some "A")];
           parent_stack := [(1, "A")] |},
        [Field.mk 3 "F" (Some "X(1)") "VARCHAR(1)" (Some 1) (Some "A");
         Field.mk 10 "X" (Some "X(1)") "VARCHAR(1)" (Some 1) (Some "A")]) /\
  map classify ["01 A."; "05 B."; "03 F PIC X(1)."; "10 X PIC X(1)."]
  = [GroupDeclaration 1 "A"; GroupDeclaration 5 "B";
     FieldDeclaration 3 "F" "X(1)"; FieldDeclaration 10 "X" "X(1)"] /\
  nearest_lower_group
    [FieldDeclaration 3 "F" "X(1)"; GroupDeclaration 5 "B"; GroupDeclaration 1 "A"] 10
  = Some "B" /\
  Some "A" <> Some "B".
Proof. split; [reflexivity | split; [reflexivity | split; [reflexivity | discriminate]]]. Qed.

(** C4, amended.  Take any line of any input, with the lines before and
    after it.  The scan reaches the line and goes on to the end.  The group
    stack grows strictly in level from bottom to top before the line and
    after it.  A declaration of level [l] pops the entries of level at
    least [l], all of them and no other, so that the entries left are below
    [l].  A FieldDeclaration adds one Field, with its level and name, which
    is in the result of [parse]; its parent is read from the top of the
    stack after the pop; when present it is the name of the nearest open
    group: a group declared before the line, with a level below the level
    of the Field and below the level of every declaration, group or field,
    between the two, and such that no group declared after it is open in
    that sense; when absent no group is open.  A FieldDeclaration of the
    same level that follows, with nothing but skipped lines between the
    two, gets the same parent. *)
Theorem parent_assignment
    (content : string) (pre : list string) (line : string) (post : list string) :
  split_lines content = (pre ++ line :: post)%list ->
  exists st st' final : CopybookParser,
    state_after pre = Ok st /\
    parse_line st line = Ok st' /\
    parse_lines st' post = Ok final /\
    parse new_parser content = Ok (final, fields final) /\
    increasing (parent_stack st) /\
    increasing (parent_stack st') /\
    (forall l : N,
        level_of (classify line) = Some l ->
        pop_while l (parent_stack st)
        = filter (fun e => fst e <? l) (parent_stack st) /\
        Forall (fun e => fst e < l) (pop_while l (parent_stack st))) /\
    (forall (l : N) (n p : string),
        classify line = FieldDeclaration l n p ->
        exists f : Field.t,
          fields st' = append_item (fields st) f /\
          In f (fields final) /\
          Field.level f = l /\
          Field.name f = n /\
          Field.parent f = parent_of (pop_while l (parent_stack st)) /\
          (forall g : string,
              Field.parent f = Some g ->
              nearest_open_group (map classify pre) l g) /\
          (Field.parent f = None ->
           forall lv g after, ~ open_group (map classify pre) l lv g after) /\
          (forall (skipped : list string) (line2 : string) (post2 : list string)
                  (n2 p2 : string),
              post = (skipped ++ line2 :: post2)%list ->
              Forall (fun x => classify x = Skip) skipped ->
              classify line2 = FieldDeclaration l n2 p2 ->
              exists (st2 : CopybookParser) (f2 : Field.t),
                parse_lines st' (skipped ++ [line2]) = Ok st2 /\
                fields st2 = append_item (fields st') f2 /\
                Field.name f2 = n2 /\
                Field.parent f2 = Field.parent f)).
Proof.
  intros Hsplit.
  destruct (parse_lines_fields pre {| fields := []; parent_stack := [] |})
    as (st & Hst & _).
  destruct (parse_line_total st line) as [st' Hline].
  destruct (parse_lines_fields post st') as (final & Hfinal & _).
  pose proof (state_after_stack pre st Hst) as Hstack.
  pose proof (stack_after_increasing (map classify pre)) as Hinc.
  rewrite <- Hstack in Hinc.
  exists st, st', final.
  split; [exact Hst|]. split; [exact Hline|]. split; [exact Hfinal|].
  split; [|split; [exact Hinc|split; [|split]]].
  - unfold parse. rewrite Hsplit, parse_lines_app, Hst. simpl.
    rewrite Hline. simpl. now rewrite Hfinal.
  - rewrite (parse_line_stack _ _ _ Hline). now apply resolve_increasing.
  - intros l _. split; [now apply pop_while_filter | now apply pop_while_below].
  - intros l n p Hc.
    pose proof (parse_line_classify st line) as Hpl. rewrite Hc in Hpl.
    destruct Hpl as (ty & len & _ & Hpl). rewrite Hline in Hpl.
    injection Hpl as ->.
    eexists. split; [reflexivity|]. simpl.
    split; [|split; [reflexivity|split; [reflexivity|split; [reflexivity|]]]].
    + destruct (parse_lines_keep_fields _ _ _ Hfinal) as [more ->].
      simpl. unfold append_item. apply in_or_app. left. apply in_or_app.
      right. now left.
    + rewrite Hstack. split; [|split].
      * intros g. apply parent_is_nearest_open.
      * apply no_parent_no_open.
      * intros skipped line2 post2 n2 p2 _ Hskip Hc2.
        rewrite parse_lines_app, (parse_lines_skips _ _ Hskip). simpl.
        match goal with
        | |- context [parse_line ?s line2] =>
            pose proof (parse_line_classify s line2) as Hpl2
        end.
        rewrite Hc2 in Hpl2. destruct Hpl2 as (ty2 & len2 & _ & ->). simpl.
        eexists. eexists. split; [reflexivity|]. simpl.
        split; [reflexivity|]. split; [reflexivity|].
        now rewrite pop_while_idem.
Qed.

(** An instance: [FIRST-NAME] in the example copybook. *)
Lemma parent_assignment_witness :
  split_lines example_copybook
  = (["01  CUSTOMER-RECORD.";
      "    05  CUSTOMER-ID       PIC 9(10).";
      "    05  CUSTOMER-NAME."]
     ++ "        10  FIRST-NAME    PIC X(30)."
     :: ["        10  LAST-NAME     PIC X(30).";
         "    05  ACCOUNT-BALANCE   PIC S9(13)V99."])%list /\
  exists f : Field.t,
    Field.name f = "FIRST-NAME" /\
    Field.parent f = Some "CUSTOMER-NAME" /\
    nearest_open_group
      (map classify ["01  CUSTOMER-RECORD.";
                     "    05  CUSTOMER-ID       PIC 9(10).";
                     "    05  CUSTOMER-NAME."])
      10 "CUSTOMER-NAME".
Proof.
  split; [reflexivity|].
  destruct (parent_assignment example_copybook
              ["01  CUSTOMER-RECORD.";
               "    05  CUSTOMER-ID       PIC 9(10).";
               "    05  CUSTOMER-NAME."]
              "        10  FIRST-NAME    PIC X(30)."
              ["        10  LAST-NAME     PIC X(30).";
               "    05  ACCOUNT-BALANCE   PIC S9(13)V99."]
              eq_refl)
    as (st & st' & final & Hst & _ & _ & _ & _ & _ & _ & Hf).
  destruct (Hf 10 "FIRST-NAME" "X(30)" eq_refl)
    as (f & _ & _ & _ & Hn & Hp & Hnear & _).
  vm_compute in Hst. injection Hst as <-.
  assert (Hpar : Field.parent f = Some "CUSTOMER-NAME")
    by (rewrite Hp; reflexivity).
  exists f. split; [exact Hn | split; [exact Hpar | exact (Hnear _ Hpar)]].
Defined.

(** ** The example copybook *)

(** C1.  On the six lines of the example [parse] returns four Fields, in
    the order of their declarations, and the DDL lists their four columns,
    lower-cased and with underscores; the first three are as the scenario
    has them.  The fourth, [ACCOUNT-BALANCE] with the clause [S9(13)V99],
    comes out as [BIGINT] with length 13 and not as [DECIMAL(15,2)] with
    length 15: the decimal pattern of [_parse_pic] asks for [V9(S)], and
    it is the integer rule that reads [9(13)].  Written [S9(13)V9(2)] the
    clause gives [DECIMAL(15,2)] with length 15. *)
Theorem example_copybook_result :
  parse_route example_copybook "customer"
  = Ok ([Field.mk 5 "CUSTOMER-ID" (Some "9(10)") "BIGINT" (Some 10)
           (Some "CUSTOMER-RECORD");
         Field.mk 10 "FIRST-NAME" (Some "X(30)") "VARCHAR(30)" (Some 30)
           (Some "CUSTOMER-NAME");
         Field.mk 10 "LAST-NAME" (Some "X(30)") "VARCHAR(30)" (Some 30)
           (Some "CUSTOMER-NAME");
         Field.mk 5 "ACCOUNT-BALANCE" (Some "S9(13)V99") "BIGINT" (Some 13)
           (Some "CUSTOMER-RECORD")],
        "CREATE TABLE bronze.customer (" ++ NL ++
        "    customer_id BIGINT," ++ NL ++
        "    first_name VARCHAR(30)," ++ NL ++
        "    last_name VARCHAR(30)," ++ NL ++
        "    account_balance BIGINT" ++ NL ++
        ");") /\
  _parse_pic "S9(13)V99" <> Ok ("DECIMAL(15,2)", 15) /\
  _parse_pic "S9(13)V9(2)" = Ok ("DECIMAL(15,2)", 15).
Proof. split; [reflexivity | split; [discriminate | reflexivity]]. Qed.

(** * More of [_parse_pic] *)

Lemma search_char_first (s pre ds : string) :
  first_char s pre ds -> search match_char_at s = Some ds.
Proof.
  intros [(suf & -> & Hat) Hmin].
  apply search_first; [now apply match_char_at_complete|].
  intros pre' suf' Heq Hlt.
  destruct (match_char_at suf') as [ds'|] eqn:E; [|reflexivity].
  apply match_char_at_sound in E. specialize (Hmin pre' suf' ds' Heq E). lia.
Qed.

Lemma search_decimal_first (s pre dp dq : string) :
  first_decimal s pre dp dq -> search match_decimal_at s = Some (dp, dq).
Proof.
  intros [(suf & -> & Hat) Hmin].
  apply search_first; [now apply match_decimal_at_complete|].
  intros pre' suf' Heq Hlt.
  destruct (match_decimal_at suf') as [[dp' dq']|] eqn:E; [|reflexivity].
  apply match_decimal_at_sound in E. specialize (Hmin pre' suf' dp' dq' Heq E). lia.
Qed.

Lemma decimal_has_V (s dp dq : string) :
  decimal_pattern_at s dp dq -> contains "V" s = true.
Proof.
  intros (_ & _ & post & ->). simpl. rewrite contains_app. simpl.
  now rewrite orb_true_r.
Qed.

(** X1.  The decimal rule, wherever the pattern stands: when
    [9(dp)V9(dq)] is the first match of the decimal pattern in the
    normalized clause, the type is [DECIMAL(p+q,q)] and the length [p+q]
    for the numbers [p] and [q] that [dp] and [dq] denote, also when the
    clause holds a [9(N)] before it, which the integer rule would read. *)
Theorem parse_pic_decimal (pic pre dp dq : string) (p q : N) :
  first_decimal (normalize pic) pre dp dq ->
  int dp = Ok p -> int dq = Ok q ->
  _parse_pic pic = Ok ("DECIMAL(" ++ str (p + q) ++ "," ++ str q ++ ")", p + q).
Proof.
  intros Hf Hp Hq. unfold _parse_pic. fold (normalize pic).
  rewrite (search_decimal_first _ _ _ _ Hf).
  destruct Hf as [(suf & Heq & Hat) _].
  assert (Hc : contains "V" (normalize pic) = true).
  { rewrite Heq, contains_app, (decimal_has_V _ _ _ Hat). apply orb_true_r. }
  rewrite Hc, Hp, Hq. reflexivity.
Qed.

(** An instance: the integer [9(3)] stands before the decimal part. *)
Lemma parse_pic_decimal_witness :
  first_decimal (normalize "s9(3)-9(05)v9(2)") "S9(3)-" "05" "2" /\
  int "05" = Ok 5 /\ int "2" = Ok 2 /\
  _parse_pic "s9(3)-9(05)v9(2)" = Ok ("DECIMAL(7,2)", 7).
Proof.
  assert (Hf : first_decimal (normalize "s9(3)-9(05)v9(2)") "S9(3)-" "05" "2").
  { split.
    - exists "9(05)V9(2)". split; [reflexivity|].
      split; [split; [reflexivity | discriminate]|].
      split; [split; [reflexivity | discriminate] | now exists ""].
    - intros pre' suf' dp' dq' Heq Hat.
      apply match_decimal_at_complete in Hat.
      change (normalize "s9(3)-9(05)v9(2)") with "S9(3)-9(05)V9(2)" in Heq.
      do 6 (destruct pre' as [|? pre'];
            [exfalso; simpl in Heq; subst suf'; discriminate Hat
            | simpl in Heq; injection Heq as <- Heq]).
      simpl. lia. }
  split; [exact Hf | split; [reflexivity | split; [reflexivity|]]].
  exact (parse_pic_decimal "s9(3)-9(05)v9(2)" "S9(3)-" "05" "2" 5 2 Hf eq_refl eq_refl).
Defined.

(** X2.  The character rule: when the integer pattern matches nowhere in
    the normalized clause and [X(ds)] or [A(ds)] is the first match of the
    character pattern, the type is [VARCHAR(n)] and the length [n] for the
    number [n] that [ds] denotes. *)
Theorem parse_pic_character (pic pre ds : string) (n : N) :
  ~ has_int (normalize pic) ->
  first_char (normalize pic) pre ds ->
  int ds = Ok n ->
  _parse_pic pic = Ok ("VARCHAR(" ++ str n ++ ")", n).
Proof.
  intros Hi Hf Hn. unfold _parse_pic. fold (normalize pic).
  assert (Hd : ~ has_decimal (normalize pic))
    by (intros H; apply Hi; now apply decimal_has_int).
  rewrite (decimal_branch_none _ Hd), (search_int_none _ Hi).
  rewrite (search_char_first _ _ _ Hf), Hn. reflexivity.
Qed.

(** An instance: lower case and a leading zero. *)
Lemma parse_pic_character_witness :
  ~ has_int (normalize "a(030)") /\
  first_char (normalize "a(030)") "" "030" /\
  int "030" = Ok 30 /\
  _parse_pic "a(030)" = Ok ("VARCHAR(30)", 30).
Proof.
  assert (Hi : ~ has_int (normalize "a(030)"))
    by (apply no_int_by_search; reflexivity).
  assert (Hf : first_char (normalize "a(030)") "" "030").
  { split.
    - exists "A(030)". split; [reflexivity|].
      split; [split; [reflexivity | discriminate]|].
      exists "A"%char, "". split; [now right | reflexivity].
    - intros. simpl. lia. }
  split; [exact Hi | split; [exact Hf | split; [reflexivity|]]].
  exact (parse_pic_character "a(030)" "" "030" 30 Hi Hf eq_refl).
Defined.


Lemma upper_char_idem (c : ascii) : upper_char (upper_char c) = upper_char c.
Proof. destruct c as [[] [] [] [] [] [] [] []]; reflexivity. Qed.

Lemma upper_lower_char (c : ascii) : upper_char (lower_char c) = upper_char c.
Proof. destruct c as [[] [] [] [] [] [] [] []]; reflexivity. Qed.

Lemma upper_space_char (c : ascii) : is_space (upper_char c) = is_space c.
Proof. destruct c as [[] [] [] [] [] [] [] []]; reflexivity. Qed.

Lemma map_str_app (f : ascii -> ascii) (a b : string) :
  map_str f (a ++ b) = map_str f a ++ map_str f b.
Proof. induction a as [|c a IH]; simpl; [reflexivity | now rewrite IH]. Qed.

Lemma upper_all_space (ws : string) :
  all_chars is_space (upper ws) = all_chars is_space ws.
Proof.
  unfold upper. induction ws as [|c ws IH]; simpl; [reflexivity|].
  now rewrite IH, upper_space_char.
Qed.

Lemma lstrip_all_space (ws : string) :
  all_chars is_space ws = true -> lstrip ws = "".
Proof.
  intros H. rewrite <- (app_nil_r_str ws). now apply lstrip_app.
Qed.

Lemma lstrip_prefix (ws s : string) :
  all_chars is_space ws = true -> lstrip (ws ++ s) = lstrip s.
Proof.
  intros H. induction ws as [|c ws IH]; simpl in *; [reflexivity|].
  apply andb_true_iff in H as [Hc Hws]. unfold lstrip in *. simpl.
  rewrite Hc. specialize (IH Hws).
  destruct (span is_space (ws ++ s)) as [a b]. exact IH.
Qed.

Lemma rstrip_all_space (ws : string) :
  all_chars is_space ws = true -> rstrip ws = "".
Proof.
  induction ws as [|c ws IH]; simpl; [reflexivity|].
  intros H. apply andb_true_iff in H as [Hc Hws]. now rewrite (IH Hws), Hc.
Qed.

Lemma rstrip_suffix (s ws : string) :
  all_chars is_space ws = true -> rstrip (s ++ ws) = rstrip s.
Proof.
  intros H. induction s as [|c s IH]; simpl.
  - now apply rstrip_all_space.
  - now rewrite IH.
Qed.

Lemma lstrip_suffix (s ws : string) :
  all_chars is_space ws = true ->
  lstrip (s ++ ws) = lstrip s ++ (if is_empty (lstrip s) then "" else ws).
Proof.
  intros H. induction s as [|c s IH].
  - simpl. now rewrite (lstrip_all_space ws H).
  - unfold lstrip in *. simpl. destruct (is_space c) eqn:Ec.
    + destruct (span is_space (s ++ ws)) as [a b].
      destruct (span is_space s) as [a' b']. exact IH.
    + reflexivity.
Qed.

Lemma strip_blanks (ws s ws' : string) :
  all_chars is_space ws = true -> all_chars is_space ws' = true ->
  strip (ws ++ s ++ ws') = strip s.
Proof.
  intros H H'. unfold strip. rewrite (lstrip_prefix _ _ H), (lstrip_suffix _ _ H').
  destruct (is_empty (lstrip s)); [now rewrite app_nil_r_str|].
  now apply rstrip_suffix.
Qed.

Lemma upper_idem (s : string) : upper (upper s) = upper s.
Proof.
  unfold upper. induction s as [|c s IH]; simpl; [reflexivity|].
  now rewrite IH, upper_char_idem.
Qed.

Lemma upper_lower (s : string) : upper (lower s) = upper s.
Proof.
  unfold upper, lower. induction s as [|c s IH]; simpl; [reflexivity|].
  now rewrite IH, upper_lower_char.
Qed.

Lemma parse_pic_normalize (a b : string) :
  normalize a = normalize b -> _parse_pic a = _parse_pic b.
Proof. unfold _parse_pic, normalize. now intros ->. Qed.

(** X4.  [_parse_pic] reads a clause without regard to the case of its
    letters nor to blanks around it: the clause in upper case, the clause
    in lower case and the clause between blanks all give the result of the
    clause itself. *)
Theorem parse_pic_case_and_blanks (pic ws ws' : string) :
  all_chars is_space ws = true ->
  all_chars is_space ws' = true ->
  _parse_pic (upper pic) = _parse_pic pic /\
  _parse_pic (lower pic) = _parse_pic pic /\
  _parse_pic (ws ++ pic ++ ws') = _parse_pic pic.
Proof.
  intros H H'. split; [|split]; apply parse_pic_normalize; unfold normalize.
  - now rewrite upper_idem.
  - now rewrite upper_lower.
  - unfold upper. rewrite !map_str_app. apply strip_blanks.
    + fold (upper ws). now rewrite upper_all_space.
    + fold (upper ws'). now rewrite upper_all_space.
Qed.

(** An instance: a tabulation before the clause and a blank after it. *)
Lemma parse_pic_case_and_blanks_witness :
  all_chars is_space (String "009" "") = true /\
  all_chars is_space " " = true /\
  _parse_pic (String "009" "" ++ "x(30)" ++ " ") = _parse_pic "x(30)".
Proof.
  split; [reflexivity | split; [reflexivity|]].
  exact (proj2 (proj2 (parse_pic_case_and_blanks "x(30)" (String "009" "") " "
                         eq_refl eq_refl))).
Defined.

(** * More of [parse] *)

Lemma digit_value_bound (c : ascii) : is_digit c = true -> digit_value c <= 9.
Proof.
  destruct c as [[] [] [] [] [] [] [] []]; intros H;
    solve [discriminate H | vm_compute; discriminate].
Qed.

Lemma lit_ci_sound (p s r : string) :
  lit_ci p s = Some r -> exists kw, s = kw ++ r /\ upper kw = p.
Proof.
  revert s. induction p as [|a p IH]; intros s H; simpl in *.
  - injection H as ->. now exists "".
  - destruct s as [|b s]; [discriminate|].
    destruct (Ascii.eqb a (upper_char b)) eqn:E; [|discriminate].
    apply Ascii.eqb_eq in E. destruct (IH _ H) as (kw & -> & <-).
    exists (String b kw). split; [reflexivity|]. simpl. now rewrite E.
Qed.

Lemma lit_ci_complete (kw r : string) : lit_ci (upper kw) (kw ++ r) = Some r.
Proof.
  induction kw as [|b kw IH]; simpl; [reflexivity|].
  now rewrite Ascii.eqb_refl.
Qed.

Lemma pic_tail_with_sound (kw s p : string) :
  pic_tail_with kw s = Some p ->
  exists k ws' rest',
    s = k ++ ws' ++ p ++ rest' /\ upper k = kw /\
    all_chars is_space ws' = true /\ ws' <> "" /\
    all_chars is_pic_char p = true /\ p <> "" /\
    starts_with_class is_pic_char rest' = false.
Proof.
  unfold pic_tail_with. intros H.
  destruct (lit_ci kw s) as [r1|] eqn:E1; [|discriminate].
  apply lit_ci_sound in E1 as (k & -> & <-). rename r1 into r.
  destruct (run1 is_space r) as [[ws' r2]|] eqn:E2; [|discriminate].
  apply run1_sound in E2 as (-> & H1 & H2 & _).
  destruct (run1 is_pic_char r2) as [[tok rest']|] eqn:E3; [|discriminate].
  apply run1_sound in E3 as (-> & H3 & H4 & H5).
  injection H as ->.
  exists k, ws', rest'. repeat split; assumption.
Qed.

Lemma pic_tail_sound (rest p : string) :
  pic_tail rest = Some p -> pic_clause_shape rest p.
Proof.
  unfold pic_tail. intros H.
  destruct (run1 is_space rest) as [[ws r]|] eqn:E; [|discriminate].
  apply run1_sound in E as (-> & Hw & Hn & _).
  destruct (pic_tail_with "PIC" r) as [tok|] eqn:E1.
  - injection H as ->.
    apply pic_tail_with_sound in E1 as (k & ws' & rest' & -> & Hk & H1 & H2 & H3 & H4 & H5).
    exists ws, k, ws', rest'. repeat split; auto.
  - apply pic_tail_with_sound in H as (k & ws' & rest' & -> & Hk & H1 & H2 & H3 & H4 & H5).
    exists ws, k, ws', rest'. repeat split; auto.
Qed.

Lemma match_line_sound (line g1 name : string) (pic : option string) :
  match_line line = Some (g1, name, pic) ->
  exists l rest,
    int g1 = Ok l /\ declaration_parts line l name rest /\ pic = pic_tail rest.
Proof.
  unfold match_line. intros H.
  pose proof (span_eq is_space line) as Hl.
  pose proof (span_all is_space line) as Hw.
  unfold lstrip in H.
  destruct (snd (span is_space line)) as [|d1 [|d2 r0]] eqn:Es; try discriminate.
  destruct (is_digit d1 && is_digit d2) eqn:Ed; [|discriminate].
  apply andb_true_iff in Ed as [E1 E2].
  destruct (run1 is_space r0) as [[ws1 r1]|] eqn:R1; [|discriminate].
  apply run1_sound in R1 as (-> & Hw1 & Hn1 & _).
  destruct (run1 is_name_char r1) as [[nm rest]|] eqn:R2; [|discriminate].
  apply run1_sound in R2 as (-> & Hn & Hnn & Hr).
  injection H as <- <- <-.
  exists (10 * digit_value d1 + digit_value d2), rest. split; [|split; [|reflexivity]].
  - unfold int. simpl. now rewrite E1, E2.
  - exists (fst (span is_space line)), d1, d2, ws1.
    rewrite Hl. repeat split; assumption.
Qed.

(** What the classifier says of a FieldDeclaration. *)
Lemma classify_field_sound (line : string) (l : N) (n p : string) :
  classify line = FieldDeclaration l n p ->
  exists rest, declaration_parts line l n rest /\ pic_clause_shape rest p.
Proof.
  unfold classify.
  destruct (startswith "*" (strip line) || is_empty (strip line)); [discriminate|].
  destruct (match_line line) as [[[g1 name] pic]|] eqn:Em; [|discriminate].
  destruct (match_line_sound _ _ _ _ Em) as (l' & rest & -> & Hd & ->).
  destruct (pic_tail rest) as [p0|] eqn:Ep; [|discriminate].
  destruct (is_empty p0); [discriminate|].
  intros [= <- <- <-]. exists rest. split; [exact Hd | now apply pic_tail_sound].
Qed.

Lemma parts_level_bound (line : string) (l : N) (n rest : string) :
  declaration_parts line l n rest -> l <= 99.
Proof.
  intros (ws & d1 & d2 & ws1 & _ & _ & E1 & E2 & -> & _).
  pose proof (digit_value_bound _ E1). pose proof (digit_value_bound _ E2). lia.
Qed.

(** The Field the loop body adds, if it adds one. *)
Lemma parse_line_adds (self self' : CopybookParser) (line : string) :
  parse_line self line = Ok self' ->
  (fields self' = fields self /\ declared_fields [classify line] = []) \/
  (exists l n p ty len parent,
      classify line = FieldDeclaration l n p /\
      _parse_pic p = Ok (ty, len) /\
      fields self' =
      (fields self ++ [Field.mk l n (Some p) ty (Some len) parent])%list).
Proof.
  pose proof (parse_line_classify self line) as H.
  destruct (classify line) as [|l n|l n p].
  - rewrite H. intros [= <-]. now left.
  - rewrite H. intros [= <-]. now left.
  - destruct H as (ty & len & Hp & ->). intros [= <-]. right.
    exists l, n, p, ty, len. eexists.
    split; [reflexivity | split; [exact Hp | reflexivity]].
Qed.

Lemma parse_lines_invariant (P : Field.t -> Prop) :
  (forall l n p ty len parent line,
      classify line = FieldDeclaration l n p -> _parse_pic p = Ok (ty, len) ->
      P (Field.mk l n (Some p) ty (Some len) parent)) ->
  forall lines self self',
    Forall P (fields self) -> parse_lines self lines = Ok self' ->
    Forall P (fields self').
Proof.
  intros HP lines. induction lines as [|x lines IH]; intros self self' Hf; simpl.
  - now intros [= <-].
  - destruct (parse_line self x) as [s|e] eqn:E; simpl; [|discriminate].
    apply IH. apply parse_line_adds in E as [[-> _]|(l & n & p & ty & len & par & Hc & Hp & ->)].
    + exact Hf.
    + apply Forall_app. split; [exact Hf|]. constructor; [|constructor].
      now apply (HP _ _ _ _ _ _ x).
Qed.

(** X5.  Every Field that [parse] returns has a level of at most 99, a
    name that is not empty and made of letters, digits and hyphens, a
    clause that is present, not empty and free of blanks and periods, and
    the type and the length that [_parse_pic] gives for that clause; its
    length is never absent. *)
Theorem parsed_fields_well_formed (self : CopybookParser) (content : string) :
  exists self' fs,
    parse self content = Ok (self', fs) /\
    Forall (fun f =>
              Field.level f <= 99 /\
              Field.name f <> "" /\
              all_chars is_name_char (Field.name f) = true /\
              exists p ty len,
                Field.pic f = Some p /\ p <> "" /\
                all_chars is_pic_char p = true /\
                _parse_pic p = Ok (ty, len) /\
                Field.sql_type f = ty /\ Field.length f = Some len) fs.
Proof.
  destruct (parse_total self content) as [s Hs]. exists s, (fields s).
  split; [exact Hs|]. unfold parse in Hs.
  destruct (parse_lines {| fields := []; parent_stack := [] |} (split_lines content))
    as [s'|e] eqn:E; [|discriminate]. simpl in Hs. injection Hs as <-.
  revert E. apply parse_lines_invariant; [|constructor].
  intros l n p ty len parent line Hc Hp. simpl.
  apply classify_field_sound in Hc as (rest & Hd & Hs).
  pose proof (parts_level_bound _ _ _ _ Hd) as Hl.
  destruct Hd as (ws & d1 & d2 & ws1 & _ & _ & _ & _ & _ & _ & _ & Hn & Hnn & _).
  destruct Hs as (w & kw & w' & r' & _ & _ & _ & _ & _ & _ & Hpc & Hpn & _).
  split; [exact Hl | split; [exact Hnn | split; [exact Hn|]]].
  exists p, ty, len. repeat split; assumption.
Qed.

Lemma declared_fields_app (a b : list line_class) :
  declared_fields (a ++ b) = (declared_fields a ++ declared_fields b)%list.
Proof. unfold declared_fields. apply flat_map_app. Qed.

Lemma declared_fields_cons (d : line_class) (ds : list line_class) :
  declared_fields (d :: ds) = (declared_fields [d] ++ declared_fields ds)%list.
Proof. exact (declared_fields_app [d] ds). Qed.

Lemma parse_lines_declared (lines : list string) (self self' : CopybookParser) :
  parse_lines self lines = Ok self' ->
  exists more,
    fields self' = (fields self ++ more)%list /\
    map field_key more = declared_fields (map classify lines).
Proof.
  revert self. induction lines as [|x lines IH]; intros self H; simpl in H.
  - injection H as <-. exists []. split; [now rewrite app_nil_r | reflexivity].
  - destruct (parse_line self x) as [s|e] eqn:E; simpl in H; [|discriminate].
    destruct (IH _ H) as (m2 & -> & H2).
    rewrite map_cons, declared_fields_cons, <- H2.
    apply parse_line_adds in E as [[-> ->]|(l & n & p & ty & len & par & Hc & Hp & ->)].
    + now exists m2.
    + eexists. split; [now rewrite <- app_assoc|].
      rewrite Hc. reflexivity.
Qed.

(** X6.  The Fields that [parse] returns are the FieldDeclaration lines of
    the input, one for one and in the order of the lines: each Field has
    the level, the name and the clause of its line, the clause as it is
    written. *)
Theorem fields_in_declaration_order (self : CopybookParser) (content : string) :
  exists self' fs,
    parse self content = Ok (self', fs) /\
    map field_key fs = declared_fields (map classify (split_lines content)).
Proof.
  destruct (parse_total self content) as [s Hs]. exists s, (fields s).
  split; [exact Hs|]. unfold parse in Hs.
  destruct (parse_lines {| fields := []; parent_stack := [] |} (split_lines content))
    as [s'|e] eqn:E; [|discriminate]. simpl in Hs. injection Hs as <-.
  apply parse_lines_declared in E as (more & -> & Hk). exact Hk.
Qed.

Lemma split_lines_not_nil (s : string) : split_lines s <> [].
Proof.
  induction s as [|c s IH]; simpl; [discriminate|].
  destruct (Ascii.eqb c LF); [discriminate|].
  destruct (split_lines s); [contradiction | discriminate].
Qed.

(** A line feed between two texts separates their lines. *)
Lemma split_lines_app (a b : string) :
  split_lines (a ++ NL ++ b) = (split_lines a ++ split_lines b)%list.
Proof.
  induction a as [|c a IH]; simpl.
  - reflexivity.
  - simpl in IH. rewrite IH. destruct (Ascii.eqb c LF); [reflexivity|].
    pose proof (split_lines_not_nil a) as Hn.
    destruct (split_lines a); [contradiction | reflexivity].
Qed.

Lemma split_lines_single (c : string) :
  contains LF c = false -> split_lines c = [c].
Proof.
  induction c as [|x c IH]; simpl; [reflexivity|].
  intros H. apply orb_false_iff in H as [Hx Hc]. now rewrite Hx, (IH Hc).
Qed.

(** X7.  Parsing a text, a line feed and a second text carries on the
    scan of the first text over the lines of the second: the Fields of the
    first text come first, unchanged, and the Fields that follow are those
    of the FieldDeclaration lines of the second text, in order. *)
Theorem parse_concat (self : CopybookParser) (a b : string) :
  exists sa sb more,
    parse self a = Ok (sa, fields sa) /\
    parse_lines sa (split_lines b) = Ok sb /\
    parse self (a ++ NL ++ b) = Ok (sb, fields sb) /\
    fields sb = (fields sa ++ more)%list /\
    map field_key more = declared_fields (map classify (split_lines b)).
Proof.
  destruct (parse_total self a) as [sa Ha].
  destruct (parse_lines_fields (split_lines b) sa) as (sb & Hb & _).
  destruct (parse_lines_declared _ _ _ Hb) as (more & Hm & Hk).
  exists sa, sb, more. split; [exact Ha|]. split; [exact Hb|].
  split; [|split; [exact Hm | exact Hk]].
  unfold parse in *. rewrite split_lines_app, parse_lines_app.
  destruct (parse_lines {| fields := []; parent_stack := [] |} (split_lines a))
    as [s|e]; [|discriminate]. simpl in *. injection Ha as ->.
  now rewrite Hb.
Qed.

(** X8.  A line classified Skip (blank, comment, or not matched by the
    pattern) is transparent: with the line put between two texts, before
    a text or after a text, [parse] gives what it gives without it. *)
Theorem skipped_line_is_transparent (self : CopybookParser) (a c b : string) :
  classify c = Skip ->
  contains LF c = false ->
  parse self (a ++ NL ++ c ++ NL ++ b) = parse self (a ++ NL ++ b) /\
  parse self (c ++ NL ++ b) = parse self b /\
  parse self (a ++ NL ++ c) = parse self a.
Proof.
  intros Hc Hl. unfold parse.
  assert (Hs : forall s, parse_line s c = Ok s).
  { intros s. pose proof (parse_line_classify s c) as H. now rewrite Hc in H. }
  rewrite !split_lines_app, (split_lines_single c Hl).
  rewrite !parse_lines_app. simpl.
  split; [|split].
  - destruct (parse_lines _ (split_lines a)) as [s|e]; simpl; [|reflexivity].
    now rewrite Hs.
  - now rewrite Hs.
  - destruct (parse_lines _ (split_lines a)) as [s|e]; simpl; [|reflexivity].
    now rewrite Hs.
Qed.

(** An instance: a comment line that holds a declaration. *)
Lemma skipped_line_is_transparent_witness :
  classify "      * 05  OLD-FIELD  PIC X(8)." = Skip /\
  contains LF "      * 05  OLD-FIELD  PIC X(8)." = false /\
  parse new_parser ("01 A." ++ NL ++ "      * 05  OLD-FIELD  PIC X(8)." ++ NL ++ "05 B PIC X(2).")
  = parse new_parser ("01 A." ++ NL ++ "05 B PIC X(2).").
Proof.
  split; [reflexivity | split; [reflexivity|]].
  exact (proj1 (skipped_line_is_transparent new_parser "01 A."
                  "      * 05  OLD-FIELD  PIC X(8)." "05 B PIC X(2)."
                  eq_refl eq_refl)).
Defined.

(** * The pattern of a line, in full *)

Lemma upper_first_not_space (kw r : string) (a : ascii) (p : string) :
  upper kw = String a p -> is_space a = false ->
  starts_with_class is_space (kw ++ r) = false.
Proof.
  destruct kw as [|b kw]; [discriminate|]. simpl. intros [= <- _].
  now rewrite upper_space_char.
Qed.

Lemma pic_char_not_space (c : ascii) : is_pic_char c = true -> is_space c = false.
Proof.
  unfold is_pic_char. intros H. apply andb_true_iff in H as [H _].
  now apply negb_true_iff in H.
Qed.

Lemma clause_starts_not_space (p rest : string) :
  all_chars is_pic_char p = true -> p <> "" ->
  starts_with_class is_space (p ++ rest) = false.
Proof.
  intros Ha Hne. destruct p as [|c p]; [congruence|]. simpl in *.
  apply andb_true_iff in Ha as [Hc _]. now apply pic_char_not_space.
Qed.

Lemma pic_tail_with_complete (kw ws' p rest' : string) :
  all_chars is_space ws' = true -> ws' <> "" ->
  all_chars is_pic_char p = true -> p <> "" ->
  starts_with_class is_pic_char rest' = false ->
  pic_tail_with (upper kw) (kw ++ ws' ++ p ++ rest') = Some p.
Proof.
  intros H1 H2 H3 H4 H5. unfold pic_tail_with.
  rewrite lit_ci_complete.
  rewrite (run1_complete is_space ws' (p ++ rest') H1 H2
             (clause_starts_not_space p rest' H3 H4)).
  now rewrite (run1_complete is_pic_char p rest' H3 H4 H5).
Qed.

(** The alternative [PIC] does not take a text that starts with
    [PICTURE]: a letter follows where blanks are asked for. *)
Lemma pic_tail_with_PIC_on_PICTURE (kw r : string) :
  upper kw = "PICTURE" -> pic_tail_with "PIC" (kw ++ r) = None.
Proof.
  intros H.
  destruct kw as [|b1 [|b2 [|b3 [|b4 kw]]]]; try discriminate.
  simpl in H. injection H as H1 H2 H3 H4 _.
  unfold pic_tail_with. simpl. rewrite H1, H2, H3. simpl.
  assert (Hs : is_space b4 = false)
    by (rewrite <- upper_space_char, H4; reflexivity).
  unfold run1. simpl. now rewrite Hs.
Qed.

Lemma pic_tail_complete (rest p : string) :
  pic_clause_shape rest p -> pic_tail rest = Some p.
Proof.
  intros (ws & kw & ws' & rest' & -> & Hw & Hwn & Hk & H1 & H2 & H3 & H4 & H5).
  unfold pic_tail.
  assert (Hs : starts_with_class is_space (kw ++ ws' ++ p ++ rest') = false)
    by (destruct Hk as [Hk|Hk]; now apply (upper_first_not_space _ _ _ _ Hk)).
  rewrite (run1_complete is_space ws _ Hw Hwn Hs).
  destruct Hk as [Hk|Hk].
  - rewrite <- Hk. now rewrite pic_tail_with_complete.
  - rewrite (pic_tail_with_PIC_on_PICTURE _ _ Hk).
    rewrite <- Hk. now apply pic_tail_with_complete.
Qed.

Lemma match_line_complete (line : string) (l : N) (name rest : string) :
  declaration_parts line l name rest ->
  startswith "*" (strip line) || is_empty (strip line) = false /\
  exists g1, match_line line = Some (g1, name, pic_tail rest) /\ int g1 = Ok l.
Proof.
  intros (ws & d1 & d2 & ws1 & -> & Hw & E1 & E2 & -> & Hw1 & Hn1 & Hn & Hnn & Hr).
  pose proof (digit_not_space _ E1) as Hs1.
  split.
  - destruct (strip_starts ws (String d2 (ws1 ++ name ++ rest)) d1 Hw Hs1) as [r' ->].
    simpl. now rewrite (digit_not_star _ E1).
  - unfold match_line.
    rewrite (lstrip_app ws (String d1 (String d2 (ws1 ++ name ++ rest))) Hw Hs1).
    rewrite E1, E2. simpl.
    rewrite (run1_complete is_space ws1 (name ++ rest) Hw1 Hn1
               (name_starts_not_space name rest Hn Hnn)).
    rewrite (run1_complete is_name_char name rest Hn Hnn Hr).
    eexists. split; [reflexivity|].
    unfold int. simpl. now rewrite E1, E2.
Qed.

(** X9.  The two kinds of declaration, from the text of the line.  A line
    is a FieldDeclaration of level [l], name [n] and clause [p] exactly
    when it is blanks, two digits that make [l], blanks, the name [n],
    and then blanks, [PIC] or [PICTURE] in any case, blanks and [p], the
    longest run of characters that are neither blank nor a period.  It is
    a GroupDeclaration exactly when it starts in the same way and what
    follows the name is no such text. *)
Theorem classify_field_and_group :
  (forall (line : string) (l : N) (n p : string),
      classify line = FieldDeclaration l n p <->
      exists rest, declaration_parts line l n rest /\ pic_clause_shape rest p) /\
  (forall (line : string) (l : N) (n : string),
      classify line = GroupDeclaration l n <->
      exists rest, declaration_parts line l n rest /\
                   forall p, ~ pic_clause_shape rest p).
Proof.
  split.
  - intros line l n p. split; [apply classify_field_sound|].
    intros (rest & Hd & Hs).
    destruct (match_line_complete _ _ _ _ Hd) as (Ht & g1 & Hm & Hi).
    unfold classify. rewrite Ht, Hm, Hi, (pic_tail_complete _ _ Hs).
    destruct Hs as (_ & _ & _ & _ & _ & _ & _ & _ & _ & _ & _ & Hp & _).
    apply is_empty_false in Hp. now rewrite Hp.
  - intros line l n. split.
    + unfold classify.
      destruct (startswith "*" (strip line) || is_empty (strip line)); [discriminate|].
      destruct (match_line line) as [[[g1 name] pic]|] eqn:Em; [|discriminate].
      destruct (match_line_sound _ _ _ _ Em) as (l' & rest & -> & Hd & ->).
      destruct (pic_tail rest) as [p0|] eqn:Ep.
      * rewrite (pic_tail_not_empty _ _ Ep). discriminate.
      * intros [= <- <-]. exists rest. split; [exact Hd|].
        intros p Hs. apply pic_tail_complete in Hs. congruence.
    + intros (rest & Hd & Hno).
      destruct (match_line_complete _ _ _ _ Hd) as (Ht & g1 & Hm & Hi).
      unfold classify. rewrite Ht, Hm, Hi.
      destruct (pic_tail rest) as [p0|] eqn:Ep; [|reflexivity].
      exfalso. apply (Hno p0). now apply pic_tail_sound.
Qed.

(** An instance: the keyword [picture] in lower case and a period. *)
Lemma classify_field_and_group_witness :
  (exists rest,
      declaration_parts "  05  Customer-Id   picture  x(10)." 5 "Customer-Id" rest /\
      pic_clause_shape rest "x(10)") /\
  classify "  05  Customer-Id   picture  x(10)."
  = FieldDeclaration 5 "Customer-Id" "x(10)".
Proof.
  assert (H : exists rest,
             declaration_parts "  05  Customer-Id   picture  x(10)." 5 "Customer-Id" rest /\
             pic_clause_shape rest "x(10)").
  { exists "   picture  x(10).". split.
    - exists "  ", "0"%char, "5"%char, "  ". repeat split; discriminate.
    - exists "   ", "picture", "  ", ".".
      repeat split; try discriminate. now right. }
  split; [exact H|].
  exact (proj2 (proj1 classify_field_and_group
                  "  05  Customer-Id   picture  x(10)." 5 "Customer-Id" "x(10)") H).
Defined.

(** * More of the group stack and of the DDL *)

Lemma classify_level_bound (line : string) (l : N) :
  level_of (classify line) = Some l -> l <= 99.
Proof.
  unfold classify.
  destruct (startswith "*" (strip line) || is_empty (strip line)); [discriminate|].
  destruct (match_line line) as [[[g1 name] pic]|] eqn:Em; [|discriminate].
  destruct (match_line_sound _ _ _ _ Em) as (l' & rest & -> & Hd & _).
  pose proof (parts_level_bound _ _ _ _ Hd) as Hb.
  destruct pic as [p|]; [destruct (is_empty p)|]; simpl; intros [= <-]; exact Hb.
Qed.

Lemma pop_while_forall (P : N * string -> Prop) (l : N) (stack : list (N * string)) :
  Forall P stack -> Forall P (pop_while l stack).
Proof.
  intros H. apply Forall_forall. intros x Hx.
  rewrite Forall_forall in H. apply H. now apply (pop_while_incl l).
Qed.

Lemma stack_after_levels (lines : list string) :
  Forall (fun e => fst e <= 99) (stack_after (map classify lines)).
Proof.
  induction lines as [|x lines IH] using rev_ind; [constructor|].
  rewrite map_app. simpl. rewrite stack_after_snoc.
  pose proof (classify_level_bound x) as Hb.
  destruct (classify x) as [|l n|l n p]; simpl in *.
  - exact IH.
  - constructor; [now apply Hb | now apply pop_while_forall].
  - now apply pop_while_forall.
Qed.

(** A stack whose levels grow strictly to the top and stay at most [b]
    holds at most [b + 1] entries. *)
Lemma increasing_length (stack : list (N * string)) (b : N) :
  increasing stack -> Forall (fun e => fst e <= b) stack ->
  N.of_nat (List.length stack) <= b + 1.
Proof.
  revert b. induction stack as [|[l n] below IH]; intros b Hi Hb; simpl List.length.
  - simpl. lia.
  - destruct Hi as [Hlt Hi]. inversion Hb as [|? ? Hl _]; subst. simpl in Hl.
    rewrite Nat2N.inj_succ.
    destruct below as [|e below]; [simpl; lia|].
    assert (Hpos : 0 < l) by (inversion Hlt; subst; lia).
    assert (Hb' : Forall (fun e => fst e <= l - 1) (e :: below))
      by (eapply Forall_impl; [|exact Hlt]; simpl; intros; lia).
    specialize (IH (l - 1) Hi Hb'). lia.
Qed.

(** X10.  At every point of the scan the group stack holds at most 100
    entries, whatever the number of lines: its levels are two-digit
    numbers that grow strictly from bottom to top. *)
Theorem stack_depth_bounded (lines : list string) :
  exists st,
    state_after lines = Ok st /\
    increasing (parent_stack st) /\
    Forall (fun e => fst e <= 99) (parent_stack st) /\
    (List.length (parent_stack st) <= 100)%nat.
Proof.
  destruct (parse_lines_fields lines {| fields := []; parent_stack := [] |})
    as (st & Hst & _).
  exists st. split; [exact Hst|].
  rewrite (state_after_stack _ _ Hst).
  pose proof (stack_after_increasing (map classify lines)) as Hi.
  pose proof (stack_after_levels lines) as Hb.
  split; [exact Hi | split; [exact Hb|]].
  pose proof (increasing_length _ 99 Hi Hb). lia.
Qed.

Lemma normal_char_idem (c : ascii) :
  let f := fun c => if Ascii.eqb (lower_char c) "-" then "_"%char else lower_char c in
  f (f c) = f c /\ Ascii.eqb (f c) "-" = false /\ is_upper (f c) = false.
Proof. destruct c as [[] [] [] [] [] [] [] []]; repeat split. Qed.

(** X11.  For a name made of ASCII letters, digits and hyphens, as the
    names of the Fields are, the column identifier that [generate_ddl]
    makes of it, lower-cased and then with hyphens replaced, has the
    length of the name, no hyphen and no upper-case letter, and making the
    identifier of an identifier changes nothing. *)
Theorem column_identifier_normal (name : string) :
  all_chars is_name_char name = true ->
  String.length (replace_char "-" "_" (lower name)) = String.length name /\
  contains "-" (replace_char "-" "_" (lower name)) = false /\
  all_chars (fun c => negb (is_upper c)) (replace_char "-" "_" (lower name)) = true /\
  replace_char "-" "_" (lower (replace_char "-" "_" (lower name)))
  = replace_char "-" "_" (lower name).
Proof.
  intros _. unfold replace_char, lower.
  induction name as [|c name (IH1 & IH2 & IH3 & IH4)]; simpl.
  - repeat split.
  - destruct (normal_char_idem c) as (H1 & H2 & H3). simpl in H1, H2, H3.
    rewrite IH1, IH2, IH3, IH4, H1, H2, H3. repeat split.
Qed.

(** An instance: a name in upper case with a hyphen. *)
Lemma column_identifier_normal_witness :
  all_chars is_name_char "CUSTOMER-ID" = true /\
  replace_char "-" "_" (lower "CUSTOMER-ID") = "customer_id" /\
  String.length (replace_char "-" "_" (lower "CUSTOMER-ID"))
  = String.length "CUSTOMER-ID".
Proof.
  split; [reflexivity | split; [reflexivity|]].
  exact (proj1 (column_identifier_normal "CUSTOMER-ID" eq_refl)).
Defined.

(** X12.  The parent at the two ends.  A FieldDeclaration of level [l]
    that no group of a level below [l] comes before gets no parent, as a
    field on the first line does; one that comes right after a
    GroupDeclaration of a level below [l] gets that group as its parent. *)
Theorem parent_boundary (pre : list string) (line : string) (l : N) (n p : string) :
  classify line = FieldDeclaration l n p ->
  exists st st' f,
    state_after pre = Ok st /\
    parse_line st line = Ok st' /\
    fields st' = append_item (fields st) f /\
    Field.name f = n /\
    ((forall lv g, In (GroupDeclaration lv g) (map classify pre) -> l <= lv) ->
     Field.parent f = None) /\
    (forall pre' gline lv g,
        pre = (pre' ++ [gline])%list ->
        classify gline = GroupDeclaration lv g -> lv < l ->
        Field.parent f = Some g).
Proof.
  intros Hc.
  destruct (parse_lines_fields pre {| fields := []; parent_stack := [] |})
    as (st & Hst & _).
  pose proof (parse_line_classify st line) as Hpl. rewrite Hc in Hpl.
  destruct Hpl as (ty & len & _ & Hpl).
  eexists. eexists. eexists. split; [exact Hst|]. split; [exact Hpl|].
  simpl. split; [reflexivity | split; [reflexivity|]].
  rewrite (state_after_stack _ _ Hst). split.
  - intros Hno.
    destruct (parent_of (pop_while l (stack_after (map classify pre)))) as [g|] eqn:E;
      [|reflexivity].
    apply parent_is_nearest_open in E as (lv & after & ((before & Hds) & Hlt & _) & _).
    assert (Hin : In (GroupDeclaration lv g) (map classify pre))
      by (rewrite Hds; apply in_or_app; right; now left).
    specialize (Hno _ _ Hin). lia.
  - intros pre' gline lv g -> Hg Hlt.
    rewrite map_app. simpl. rewrite stack_after_snoc, Hg. simpl.
    replace (l <=? lv) with false by (symmetry; apply N.leb_gt; exact Hlt).
    reflexivity.
Qed.

(** An instance: a field of level 1 on the first line. *)
Lemma parent_boundary_witness :
  classify "01  RECORD-KEY  PIC X(8)." = FieldDeclaration 1 "RECORD-KEY" "X(8)" /\
  exists st' f,
    parse_line new_parser "01  RECORD-KEY  PIC X(8)." = Ok st' /\
    fields st' = [f] /\ Field.name f = "RECORD-KEY" /\ Field.parent f = None.
Proof.
  split; [reflexivity|].
  destruct (parent_boundary [] "01  RECORD-KEY  PIC X(8)." 1 "RECORD-KEY" "X(8)" eq_refl)
    as (st & st' & f & Hst & Hl & Hf & Hn & Hnone & _).
  injection Hst as <-.
  exists st', f. split; [exact Hl | split; [exact Hf | split; [exact Hn|]]].
  apply Hnone. intros lv g [].
Defined.

(** * The limit on integer text *)

Lemma pow10_S (k : nat) : pow10 (S k) = 10 * pow10 k.
Proof. reflexivity. Qed.

Lemma pow10_pos (k : nat) : 0 < pow10 k.
Proof. induction k as [|k IH]; [reflexivity | rewrite pow10_S; lia]. Qed.

Lemma pow10_mono (a b : nat) : (a <= b)%nat -> pow10 a <= pow10 b.
Proof.
  induction 1 as [|b _ IH]; [lia|]. rewrite pow10_S. pose proof (pow10_pos b). lia.
Qed.

(** A run of [k] digits denotes a number below [10 ^ k]. *)
Lemma int_acc_bound (ds : string) (acc n : N) :
  int_acc acc ds = Ok n -> n < (acc + 1) * pow10 (String.length ds).
Proof.
  revert acc. induction ds as [|c ds IH]; intros acc H;
    cbn [int_acc] in H; cbn [String.length].
  - injection H as <-. change (pow10 0) with 1. lia.
  - destruct (is_digit c) eqn:Ec; [|discriminate].
    pose proof (digit_value_bound c Ec) as Hd.
    apply IH in H. rewrite pow10_S.
    pose proof (pow10_pos (String.length ds)) as Hp.
    revert H Hd Hp.
    generalize (pow10 (String.length ds)) (digit_value c). intros P d H Hd Hp.
    assert (Hle : (10 * acc + d + 1) * P <= (acc + 1) * (10 * P)) by nia.
    lia.
Qed.

Lemma int_bound (ds : string) (n : N) :
  int ds = Ok n -> n < pow10 (String.length ds).
Proof.
  unfold int. destruct (is_empty ds); [discriminate|].
  intros H. apply int_acc_bound in H. lia.
Qed.

Lemma string_of_uint_length (d : Decimal.uint) :
  String.length (NilEmpty.string_of_uint d) = Decimal.nb_digits d.
Proof. induction d; simpl; congruence. Qed.

Lemma of_uint_acc_step (k acc : positive) (P : N) :
  0 < P ->
  N.pos acc * (10 * P) <= N.pos (Pos.mul 10 acc) * P /\
  N.pos acc * (10 * P) <= N.pos (Pos.add k (Pos.mul 10 acc)) * P.
Proof. intros H. split; nia. Qed.

Lemma of_uint_acc_lower (d : Decimal.uint) (acc : positive) :
  Npos acc * pow10 (Decimal.nb_digits d) <= Npos (Pos.of_uint_acc d acc).
Proof.
  revert acc.
  induction d as [|d IH|d IH|d IH|d IH|d IH|d IH|d IH|d IH|d IH|d IH];
    intros acc; cbn [Pos.of_uint_acc Decimal.nb_digits];
    [change (pow10 0) with 1; lia | ..];
    (etransitivity; [|apply IH]);
    rewrite pow10_S;
    first [ apply (proj1 (of_uint_acc_step 1 acc _ (pow10_pos (Decimal.nb_digits d))))
          | apply (proj2 (of_uint_acc_step _ acc _ (pow10_pos (Decimal.nb_digits d)))) ].
Qed.

(** The decimal text of a number below [10 ^ k] has at most [k] digits. *)
Lemma str_length_bound (n : N) (k : nat) :
  (1 <= k)%nat -> n < pow10 k -> (String.length (str n) <= k)%nat.
Proof.
  intros Hk Hn. unfold str. rewrite string_of_uint_length.
  destruct n as [|p]; [simpl; lia|].
  simpl N.to_uint.
  pose proof (DecimalPos.Unsigned.of_to p) as Hof.
  pose proof (DecimalPos.Unsigned.to_of (Pos.to_uint p)) as Hto.
  rewrite Hof in Hto. simpl N.to_uint in Hto.
  pose proof (DecimalPos.Unsigned.to_uint_nonzero p) as Hnz.
  assert (Hhead : Decimal.nzhead (Pos.to_uint p) = Pos.to_uint p).
  { destruct (Decimal.nzhead (Pos.to_uint p)) eqn:E;
      try (rewrite <- E; rewrite <- (DecimalFacts.unorm_nzhead (Pos.to_uint p));
           [symmetry; exact Hto | rewrite E; discriminate]).
    exfalso. apply Hnz. rewrite Hto. unfold Decimal.unorm. now rewrite E. }
  destruct (Nat.le_gt_cases (Decimal.nb_digits (Pos.to_uint p)) k) as [Hle|Hgt];
    [exact Hle | exfalso].
  assert (Hlow : pow10 k <= Npos p).
  { rewrite <- Hof.
    destruct (Pos.to_uint p) as [|d|d|d|d|d|d|d|d|d|d] eqn:Ed;
      [exact (False_ind _ (DecimalPos.Unsigned.to_uint_nonnil p Ed))
      | exfalso; exact (DecimalFacts.nzhead_nonzero _ _ Hhead)
      | ..];
      cbn [Decimal.nb_digits] in Hgt; cbn [Pos.of_uint];
      (etransitivity; [|apply of_uint_acc_lower]);
      pose proof (pow10_mono k (Decimal.nb_digits d) ltac:(lia));
      pose proof (pow10_pos (Decimal.nb_digits d)); nia. }
  lia.
Qed.

Lemma limited_int_refines (s : string) (n : N) :
  Limited.int s = Ok n -> int s = Ok n.
Proof.
  unfold Limited.int. now destruct (max_str_digits <? String.length s)%nat.
Qed.

Lemma limited_int_short (s : string) :
  (String.length s <= max_str_digits)%nat -> Limited.int s = int s.
Proof.
  intros H. unfold Limited.int.
  destruct (Nat.ltb_spec max_str_digits (String.length s)); [lia | reflexivity].
Qed.

Lemma limited_str_refines (n : N) (t : string) :
  Limited.str n = Ok t -> t = str n.
Proof.
  unfold Limited.str.
  destruct (max_str_digits <? String.length (str n))%nat; [discriminate|].
  now intros [= <-].
Qed.

Lemma limited_str_short (n : N) :
  (String.length (str n) <= max_str_digits)%nat -> Limited.str n = Ok (str n).
Proof.
  intros H. unfold Limited.str.
  destruct (Nat.ltb_spec max_str_digits (String.length (str n))); [lia | reflexivity].
Qed.

(** Whenever the code returns under the limit, it returns the same
    without the limit. *)
Lemma parse_pic_limited_refines (pic : string) (r : string * N) :
  Limited._parse_pic pic = Ok r -> _parse_pic pic = Ok r.
Proof.
  unfold Limited._parse_pic, _parse_pic.
  destruct (if contains "V" (strip (upper pic))
            then search match_decimal_at (strip (upper pic)) else None)
    as [[g1 g2]|].
  - destruct (Limited.int g1) as [p|] eqn:E1; [|discriminate].
    destruct (Limited.int g2) as [q|] eqn:E2; [|discriminate].
    rewrite (limited_int_refines _ _ E1), (limited_int_refines _ _ E2). simpl.
    destruct (Limited.str (p + q)) as [t1|] eqn:E3; [|discriminate].
    destruct (Limited.str q) as [t2|] eqn:E4; [|discriminate].
    rewrite (limited_str_refines _ _ E3), (limited_str_refines _ _ E4).
    simpl. exact (fun H => H).
  - destruct (search match_int_at (strip (upper pic))) as [g1|].
    + destruct (Limited.int g1) as [n|] eqn:E1; [|discriminate].
      rewrite (limited_int_refines _ _ E1). exact (fun H => H).
    + destruct (search match_char_at (strip (upper pic))) as [g1|];
        [|exact (fun H => H)].
      destruct (Limited.int g1) as [n|] eqn:E1; [|discriminate].
      rewrite (limited_int_refines _ _ E1). simpl.
      destruct (Limited.str n) as [t|] eqn:E3; [|discriminate].
      rewrite (limited_str_refines _ _ E3). exact (fun H => H).
Qed.

Lemma limited_level (line g1 name : string) (pic : option string) :
  match_line line = Some (g1, name, pic) -> Limited.int g1 = int g1.
Proof.
  intros H. destruct (match_line_level _ _ _ _ H) as (d1 & d2 & -> & _).
  reflexivity.
Qed.

Lemma parse_line_limited_refines (self self' : CopybookParser) (line : string) :
  Limited.parse_line self line = Ok self' -> parse_line self line = Ok self'.
Proof.
  unfold Limited.parse_line, parse_line.
  destruct (startswith "*" (strip line) || is_empty (strip line)); [exact (fun H => H)|].
  destruct (match_line line) as [[[g1 name] pic]|] eqn:Em; [|exact (fun H => H)].
  rewrite (limited_level _ _ _ _ Em).
  destruct (int g1) as [level|]; [|exact (fun H => H)]. simpl.
  rewrite read_parent. simpl.
  destruct pic as [p|]; [|exact (fun H => H)].
  destruct (is_empty p); [exact (fun H => H)|].
  destruct (Limited._parse_pic p) as [r|] eqn:Ep; [|discriminate].
  rewrite (parse_pic_limited_refines _ _ Ep). exact (fun H => H).
Qed.

Lemma parse_lines_limited_refines (lines : list string) (self self' : CopybookParser) :
  Limited.parse_lines self lines = Ok self' -> parse_lines self lines = Ok self'.
Proof.
  revert self. induction lines as [|x lines IH]; intros self; simpl.
  - exact (fun H => H).
  - destruct (Limited.parse_line self x) as [s|] eqn:E; [|discriminate].
    rewrite (parse_line_limited_refines _ _ _ E). simpl. apply IH.
Qed.

Lemma parse_limited_refines (self : CopybookParser) (content : string)
    (r : CopybookParser * list Field.t) :
  Limited.parse self content = Ok r -> parse self content = Ok r.
Proof.
  unfold Limited.parse, parse.
  destruct (Limited.parse_lines _ (split_lines content)) as [s|] eqn:E; [|discriminate].
  rewrite (parse_lines_limited_refines _ _ _ E). exact (fun H => H).
Qed.

(** ** Within the limit *)

Lemma length_map_str (f : ascii -> ascii) (s : string) :
  String.length (map_str f s) = String.length s.
Proof. induction s as [|c s IH]; simpl; congruence. Qed.

Lemma length_lstrip (s : string) : (String.length (lstrip s) <= String.length s)%nat.
Proof.
  unfold lstrip. pose proof (span_eq is_space s) as H.
  rewrite <- H at 2. rewrite length_app_str. lia.
Qed.

Lemma length_rstrip (s : string) : (String.length (rstrip s) <= String.length s)%nat.
Proof.
  induction s as [|c s IH]; simpl; [lia|].
  destruct (is_space c && is_empty (rstrip s)); simpl; lia.
Qed.

Lemma length_normalize (pic : string) :
  (String.length (normalize pic) <= String.length pic)%nat.
Proof.
  unfold normalize, strip, upper.
  pose proof (length_rstrip (lstrip (map_str upper_char pic))).
  pose proof (length_lstrip (map_str upper_char pic)).
  rewrite length_map_str in *. lia.
Qed.

Lemma sum_below_pow10 (p q : N) (a b : nat) :
  p < pow10 a -> q < pow10 b -> p + q < pow10 (S (a + b)).
Proof.
  intros Hp Hq. rewrite pow10_S.
  pose proof (pow10_mono a (a + b) ltac:(lia)).
  pose proof (pow10_mono b (a + b) ltac:(lia)). lia.
Qed.

Lemma number_length (ds : string) : is_number ds -> (1 <= String.length ds)%nat.
Proof. intros [_ H]. destruct ds; [congruence | simpl; lia]. Qed.

Ltac lengths H :=
  repeat (progress (rewrite ?length_app_str in H; cbn [String.length] in H)).

(** On a clause of at most 4300 characters the limit changes nothing. *)
Lemma parse_pic_within_limit (pic : string) :
  (String.length pic <= max_str_digits)%nat ->
  Limited._parse_pic pic = _parse_pic pic.
Proof.
  intros Hlen. pose proof (length_normalize pic) as Hn.
  unfold Limited._parse_pic, _parse_pic. fold (normalize pic).
  destruct (if contains "V" (normalize pic)
            then search match_decimal_at (normalize pic) else None)
    as [[g1 g2]|] eqn:Ed.
  - destruct (contains "V" (normalize pic)); [|discriminate].
    apply search_some in Ed as (pre & suf & Heq & Hm & _).
    apply match_decimal_at_sound in Hm as (Hp & Hq & post & ->).
    rewrite Heq in Hn. lengths Hn.
    rewrite !limited_int_short by lia.
    destruct (int_of_number _ Hp) as [p Ep], (int_of_number _ Hq) as [q Eq].
    rewrite Ep, Eq. simpl.
    pose proof (int_bound _ _ Ep) as Bp. pose proof (int_bound _ _ Eq) as Bq.
    pose proof (number_length _ Hq).
    pose proof (str_length_bound (p + q) (S (String.length g1 + String.length g2))
                  ltac:(lia) (sum_below_pow10 _ _ _ _ Bp Bq)).
    pose proof (str_length_bound q (String.length g2) ltac:(lia) Bq).
    rewrite !limited_str_short by lia. reflexivity.
  - destruct (search match_int_at (normalize pic)) as [g1|] eqn:Ei.
    + apply search_some in Ei as (pre & suf & Heq & Hm & _).
      apply match_int_at_sound in Hm as (Hp & post & ->).
      rewrite Heq in Hn. lengths Hn.
      rewrite limited_int_short by lia. reflexivity.
    + destruct (search match_char_at (normalize pic)) as [g1|] eqn:Ec; [|reflexivity].
      apply search_some in Ec as (pre & suf & Heq & Hm & _).
      apply match_char_at_sound in Hm as (Hp & c & post & _ & ->).
      rewrite Heq in Hn. lengths Hn.
      rewrite limited_int_short by lia.
      destruct (int_of_number _ Hp) as [n En]. rewrite En. simpl.
      pose proof (int_bound _ _ En) as Bn. pose proof (number_length _ Hp).
      pose proof (str_length_bound n (String.length g1) ltac:(lia) Bn).
      rewrite limited_str_short by lia. reflexivity.
Qed.

(** The clause of a line is no longer than the line. *)
Lemma match_line_clause_length (line g1 name p : string) :
  match_line line = Some (g1, name, Some p) ->
  (String.length p <= String.length line)%nat.
Proof.
  intros H. destruct (match_line_sound _ _ _ _ H) as (l & rest & _ & Hd & Hp).
  symmetry in Hp. apply pic_tail_sound in Hp as (ws & kw & ws' & rest' & -> & _).
  destruct Hd as (w & d1 & d2 & ws1 & -> & _).
  repeat (progress (rewrite ?length_app_str; cbn [String.length])). lia.
Qed.

Lemma parse_line_within_limit (self : CopybookParser) (line : string) :
  (String.length line <= max_str_digits)%nat ->
  Limited.parse_line self line = parse_line self line.
Proof.
  intros Hlen. unfold Limited.parse_line, parse_line.
  destruct (startswith "*" (strip line) || is_empty (strip line)); [reflexivity|].
  destruct (match_line line) as [[[g1 name] pic]|] eqn:Em; [|reflexivity].
  rewrite (limited_level _ _ _ _ Em).
  destruct (int g1) as [level|]; [|reflexivity]. simpl.
  destruct pic as [p|]; [|reflexivity].
  pose proof (match_line_clause_length _ _ _ _ Em).
  rewrite parse_pic_within_limit by lia. reflexivity.
Qed.

Lemma parse_lines_within_limit (lines : list string) (self : CopybookParser) :
  Forall (fun line => (String.length line <= max_str_digits)%nat) lines ->
  Limited.parse_lines self lines = parse_lines self lines.
Proof.
  intros H. revert self. induction H as [|x lines Hx _ IH]; intros self; simpl.
  - reflexivity.
  - rewrite (parse_line_within_limit self x Hx).
    destruct (parse_line self x) as [s|]; simpl; [apply IH | reflexivity].
Qed.

Lemma parse_within_limit (self : CopybookParser) (content : string) :
  Forall (fun line => (String.length line <= max_str_digits)%nat)
    (split_lines content) ->
  Limited.parse self content = parse self content.
Proof.
  intros H. unfold Limited.parse, parse.
  now rewrite (parse_lines_within_limit _ _ H).
Qed.

Lemma limited_skip (self : CopybookParser) (line : string) :
  classify line = Skip -> Limited.parse_line self line = Ok self.
Proof.
  unfold classify, Limited.parse_line.
  destruct (startswith "*" (strip line) || is_empty (strip line)); [reflexivity|].
  destruct (match_line line) as [[[g1 name] pic]|] eqn:Em; [|reflexivity].
  destruct (match_line_level _ _ _ _ Em) as (d1 & d2 & _ & _ & _ & ->).
  destruct pic as [p|]; [destruct (is_empty p)|]; discriminate.
Qed.

(** ** Where the code raises, and where it cannot *)

(** C3, as the code has it.  The clause [S9(4)COMP] holds [9(4)], which
    the integer rule finds anywhere in the clause: the result is [INTEGER]
    with length 4, not the fallback, with or without the limit.  And under
    the default limit the interpreter does fail on a clause: [9(N)] with an
    [N] of 4301 digits makes [int ()] raise [ValueError]. *)
Lemma parse_pic_not_fallback_nor_total :
  _parse_pic "S9(4)COMP" = Ok ("INTEGER", 4) /\
  Limited._parse_pic "S9(4)COMP" = Ok ("INTEGER", 4) /\
  Limited._parse_pic "S9(4)COMP" <> Ok ("VARCHAR(255)", 255) /\
  Limited._parse_pic ("9(" ++ repeat_char "1" 4301 ++ ")") = Raise ValueError.
Proof.
  split; [reflexivity | split; [reflexivity | split; [discriminate|]]].
  vm_compute. reflexivity.
Qed.

(** C3, amended.  Under the default limit of the interpreter: a clause in
    which, once normalized, neither the decimal, nor the integer, nor the
    character pattern matches anywhere yields [VARCHAR(255)] with length
    255, whatever its length; [_parse_pic] returns on every clause of at
    most 4300 characters; it raises [ValueError] on [9(N)] with an [N] of
    4301 digits; and [S9(4)COMP], in which [9(4)] matches, yields
    [INTEGER] with length 4. *)
Theorem parse_pic_fallback_within_limit :
  (forall pic : string,
      ~ has_decimal (normalize pic) ->
      ~ has_int (normalize pic) ->
      ~ has_char (normalize pic) ->
      Limited._parse_pic pic = Ok ("VARCHAR(255)", 255)) /\
  (forall pic : string,
      (String.length pic <= max_str_digits)%nat ->
      exists r, Limited._parse_pic pic = Ok r) /\
  Limited._parse_pic ("9(" ++ repeat_char "1" 4301 ++ ")") = Raise ValueError /\
  Limited._parse_pic "S9(4)COMP" = Ok ("INTEGER", 4).
Proof.
  split; [|split; [|split; [vm_compute; reflexivity | reflexivity]]].
  - intros pic Hd Hi Hc. unfold Limited._parse_pic. fold (normalize pic).
    rewrite (decimal_branch_none _ Hd), (search_int_none _ Hi), (search_char_none _ Hc).
    reflexivity.
  - intros pic Hlen. rewrite (parse_pic_within_limit pic Hlen).
    apply parse_pic_total.
Qed.

(** An instance: a signed clause without parentheses falls back. *)
Lemma parse_pic_fallback_within_limit_witness :
  ~ has_decimal (normalize "S9V99") /\
  ~ has_int (normalize "S9V99") /\
  ~ has_char (normalize "S9V99") /\
  Limited._parse_pic "S9V99" = Ok ("VARCHAR(255)", 255).
Proof.
  assert (Hd : ~ has_decimal (normalize "S9V99"))
    by (apply no_decimal_by_search; reflexivity).
  assert (Hi : ~ has_int (normalize "S9V99"))
    by (apply no_int_by_search; reflexivity).
  assert (Hc : ~ has_char (normalize "S9V99"))
    by (apply no_char_by_search; reflexivity).
  split; [exact Hd | split; [exact Hi | split; [exact Hc|]]].
  exact (proj1 parse_pic_fallback_within_limit "S9V99" Hd Hi Hc).
Defined.

(** C5, as the code has it.  Under the default limit of the interpreter
    the line [05 A PIC 9(N).] with an [N] of 4301 digits makes [int ()]
    raise [ValueError] in [_parse_pic]; [parse] does not catch it, and the
    route returns neither Fields nor DDL. *)
Lemma parse_raises_on_long_digit_run :
  Limited.parse new_parser ("05 A PIC 9(" ++ repeat_char "1" 4301 ++ ").")
  = Raise ValueError /\
  Limited.parse_route ("05 A PIC 9(" ++ repeat_char "1" 4301 ++ ").") "t"
  = Raise ValueError.
Proof. split; vm_compute; reflexivity. Qed.

(** C5, amended.  Under the default limit of the interpreter: on every
    input whose lines have at most 4300 characters each, [parse] returns a
    Field list, and the route built on it the Field list and the DDL; a
    line classified Skip leaves the instance as it is, whatever its
    length; [_parse_pic] returns on every clause of at most 4300
    characters, an unrecognized one being defaulted.  On a longer line
    [parse] can raise: it does on [05 A PIC 9(N).] with an [N] of 4301
    digits. *)
Theorem parse_returns_within_limit :
  (forall (self : CopybookParser) (content : string),
      Forall (fun line => (String.length line <= max_str_digits)%nat)
        (split_lines content) ->
      exists self' fs, Limited.parse self content = Ok (self', fs)) /\
  (forall copybook table_name : string,
      Forall (fun line => (String.length line <= max_str_digits)%nat)
        (split_lines copybook) ->
      exists fs ddl, Limited.parse_route copybook table_name = Ok (fs, ddl)) /\
  (forall (self : CopybookParser) (line : string),
      classify line = Skip -> Limited.parse_line self line = Ok self) /\
  (forall pic : string,
      (String.length pic <= max_str_digits)%nat ->
      exists r, Limited._parse_pic pic = Ok r) /\
  Limited.parse new_parser ("05 A PIC 9(" ++ repeat_char "1" 4301 ++ ").")
  = Raise ValueError.
Proof.
  split; [|split; [|split; [|split]]].
  - intros self content H. rewrite (parse_within_limit self content H).
    destruct (parse_total self content) as [s Hs]. now exists s, (fields s).
  - intros copybook table_name H. unfold Limited.parse_route.
    rewrite (parse_within_limit new_parser copybook H).
    destruct (parse_total new_parser copybook) as [s ->]. simpl.
    now eexists; eexists.
  - exact limited_skip.
  - intros pic Hlen. rewrite (parse_pic_within_limit pic Hlen).
    apply parse_pic_total.
  - vm_compute. reflexivity.
Qed.

Lemma short_lines (lines : list string) :
  forallb (fun line => (String.length line <=? max_str_digits)%nat) lines = true ->
  Forall (fun line => (String.length line <= max_str_digits)%nat) lines.
Proof.
  intros H. apply Forall_forall. intros x Hx.
  rewrite forallb_forall in H. apply Nat.leb_le. now apply H.
Qed.

(** An instance: the example copybook, whose lines are short. *)
Lemma parse_returns_within_limit_witness :
  Forall (fun line => (String.length line <= max_str_digits)%nat)
    (split_lines example_copybook) /\
  exists self' fs, Limited.parse new_parser example_copybook = Ok (self', fs).
Proof.
  assert (H : Forall (fun line => (String.length line <= max_str_digits)%nat)
                (split_lines example_copybook)).
  { apply short_lines. vm_compute. reflexivity. }
  split; [exact H|].
  exact (proj1 parse_returns_within_limit new_parser example_copybook H).
Defined.
